(** * FormBuilder (forms-deprecated/form_builder.ts)

    A shallow embedding of the [FormBuilder] class and of the part of the
    JavaScript object model the class relies on: untyped values, a heap of
    objects addressed by reference, allocation, and abrupt completion by a
    thrown error.  The builder's methods become functions in a monad that
    threads the heap and may throw. *)

From Stdlib Require Import ZArith Bool Lia.
From stdpp Require Import base list strings.

Open Scope string_scope.
Open Scope list_scope.

(** ** Values and objects *)

(** A reference is an index into the heap. *)
Definition loc := nat.

(** JavaScript values as the builder sees them.  Numbers only travel as
    data, and functions (validators) are never called by the builder, so a
    function value is an opaque name. *)
Inductive jsval : Type :=
  | VUndefined
  | VNull
  | VBool (b : bool)
  | VNum (n : Z)
  | VStr (s : string)
  | VFun (name : string)
  | VRef (l : loc).

(** Own enumerable properties of a plain object, in enumeration order. *)
Abbreviation props := (list (string * jsval)).

(** Heap objects: arrays, plain string maps, and the three model classes
    imported from [./model]. *)
Inductive obj : Type :=
  | OArray (elems : list jsval)
  | OMap (ps : props)
  | OControl (value validator asyncValidator : jsval)
  | OControlGroup (controls optionals validator asyncValidator : jsval)
  | OControlArray (controls validator asyncValidator : jsval).

Abbreviation heap := (list obj).

Inductive error : Type :=
  | TypeError.

(** ** The heap-and-throw monad *)

Inductive result (A : Type) : Type :=
  | Ok (a : A) (h : heap)
  | Throw (e : error) (h : heap).
Arguments Ok {A} a h.
Arguments Throw {A} e h.

Definition M (A : Type) : Type := heap -> result A.

Definition ret {A} (a : A) : M A := fun h => Ok a h.

Definition bind {A B} (m : M A) (k : A -> M B) : M B :=
  fun h => match m h with
           | Ok a h' => k a h'
           | Throw e h' => Throw e h'
           end.

Definition throw {A} (e : error) : M A := fun h => Throw e h.

Notation "'let*' x ':=' m 'in' k" := (bind m (fun x => k))
  (at level 10, x name, m at level 100, k at level 200).
Notation "'do' m 'then' k" := (bind m (fun _ => k))
  (at level 10, m at level 100, k at level 200).

(** [new]: the object is placed at the first unused reference. *)
Definition alloc (o : obj) : M jsval :=
  fun h => Ok (VRef (length h)) (h ++ [o]).

(** ** Property tables *)

Fixpoint get_prop (k : string) (ps : props) : option jsval :=
  match ps with
  | [] => None
  | (k', v) :: ps' => if String.eqb k k' then Some v else get_prop k ps'
  end.

(** Storing [v] under the own key [k]: an existing key keeps its place, a
    new key is added last. *)
Fixpoint set_prop (k : string) (v : jsval) (ps : props) : props :=
  match ps with
  | [] => [(k, v)]
  | (k', v') :: ps' =>
      if String.eqb k k' then (k, v) :: ps' else (k', v') :: set_prop k v ps'
  end.

(** [o[k] = v] on a plain object whose prototype is [Object.prototype], as
    an object literal has it: the name [__proto__] is not stored, it
    reaches the setter inherited from [Object.prototype], which changes
    the prototype of [o] and leaves its own properties as they are.  Every
    other name is an own property.  (Prototypes themselves are not
    represented: an object's class is its constructor in [obj].) *)
Definition assign_prop (k : string) (v : jsval) (ps : props) : props :=
  if String.eqb k "__proto__" then ps else set_prop k v ps.

Definition keys (ps : props) : list string := map fst ps.

(** ** Language primitives used by the builder *)

(** [x instanceof Control], [x instanceof ControlGroup],
    [x instanceof ControlArray]. *)
Definition instanceof_Control (h : heap) (v : jsval) : bool :=
  match v with
  | VRef l => match h !! l with Some (OControl _ _ _) => true | _ => false end
  | _ => false
  end.

Definition instanceof_ControlGroup (h : heap) (v : jsval) : bool :=
  match v with
  | VRef l =>
      match h !! l with Some (OControlGroup _ _ _ _) => true | _ => false end
  | _ => false
  end.

Definition instanceof_ControlArray (h : heap) (v : jsval) : bool :=
  match v with
  | VRef l =>
      match h !! l with Some (OControlArray _ _ _) => true | _ => false end
  | _ => false
  end.

(** The elements of [v] when [v] refers to an array. *)
Definition array_elems (h : heap) (v : jsval) : option (list jsval) :=
  match v with
  | VRef l =>
      match h !! l with Some (OArray elems) => Some elems | _ => None end
  | _ => None
  end.

(** [a[i]]: reading past the end of an array yields [undefined]. *)
Definition index (h : heap) (a : jsval) (i : nat) : jsval :=
  match array_elems h a with
  | Some elems => nth i elems VUndefined
  | None => VUndefined
  end.

(** [a.length]. *)
Definition array_length (h : heap) (a : jsval) : nat :=
  match array_elems h a with
  | Some elems => length elems
  | None => 0
  end.

(** A parameter declared [p = d] takes [d] when the argument is missing or
    [undefined]. *)
Definition default_param (arg d : jsval) : jsval :=
  match arg with
  | VUndefined => d
  | _ => arg
  end.

(** ** Imported helpers ([../facade/lang], [../facade/collection]) *)

(** Modelled from the spec: [isPresent] of [../facade/lang], which is not
    part of the sources here; a value is present when it is neither
    [undefined] nor [null] ("none"). *)
Definition isPresent (v : jsval) : bool :=
  match v with
  | VUndefined | VNull => false
  | _ => true
  end.

(** Modelled from the spec: [isArray] of [../facade/lang]; true of
    "an ordered sequence (array-shaped)" value. *)
Definition isArray (h : heap) (v : jsval) : bool :=
  match array_elems h v with
  | Some _ => true
  | None => false
  end.

(** The property table of [v] when [v] refers to a plain string map. *)
Definition map_props (h : heap) (v : jsval) : option props :=
  match v with
  | VRef l => match h !! l with Some (OMap ps) => Some ps | _ => None end
  | _ => None
  end.

(** Modelled from the spec: [StringMapWrapper.get] of [../facade/collection];
    the value stored under an own key of the map, and no value
    ([undefined]) for a missing key.  The parameter is typed as a string
    map; any other value carries no such key in this model. *)
Definition StringMapWrapper_get (map : jsval) (key : string) : M jsval :=
  fun h => match map_props h map with
           | Some ps => match get_prop key ps with
                        | Some v => Ok v h
                        | None => Ok VUndefined h
                        end
           | None => Ok VUndefined h
           end.

(** The loop of [StringMapWrapper.forEach]: each enumerated key that is
    still an own key of the map is read from the current heap and handed to
    the callback together with its value. *)
Fixpoint forEach_keys (map : jsval) (ks : list string)
    (callback : jsval -> string -> M unit) : M unit :=
  match ks with
  | [] => ret tt
  | k :: ks' =>
      fun h =>
        match map_props h map with
        | Some ps =>
            match get_prop k ps with
            | Some v => (do callback v k then forEach_keys map ks' callback) h
            | None => forEach_keys map ks' callback h
            end
        | None => forEach_keys map ks' callback h
        end
  end.

(** Modelled from the spec: [StringMapWrapper.forEach] of
    [../facade/collection]; it "iterates every key of the input mapping",
    in enumeration order.  The parameter is typed as a string map; any
    other value has no keys in this model. *)
Definition StringMapWrapper_forEach (map : jsval)
    (callback : jsval -> string -> M unit) : M unit :=
  fun h => match map_props h map with
           | Some ps => forEach_keys map (keys ps) callback h
           | None => Ok tt h
           end.

(** [o[k] = v] where [o] refers to a plain object made by an object
    literal. *)
Definition set_property (o : jsval) (k : string) (v : jsval) : M unit :=
  fun h => match o with
           | VRef l =>
               match h !! l with
               | Some (OMap ps) =>
                   Ok tt (<[l := OMap (assign_prop k v ps)]> h)
               | _ => Ok tt h
               end
           | _ => Ok tt h
           end.

(** The loop of [Array.prototype.map]: the length is fixed on entry, each
    element is read from the current heap when its turn comes, and the
    callback is called on the elements from left to right. *)
Fixpoint map_loop (a : jsval) (callback : jsval -> M jsval)
    (i n : nat) : M (list jsval) :=
  match n with
  | 0 => ret []
  | S n' =>
      fun h =>
        (let* r := callback (index h a i) in
         let* rs := map_loop a callback (S i) n' in
         ret (r :: rs)) h
  end.

(** [a.map(callback)]: the results of the callback make a new array, here
    allocated once the loop is over.  A receiver without a callable [map]
    (anything but an array in this model, [null] and [undefined] included)
    makes the call throw a [TypeError]. *)
Definition Array_map (a : jsval) (callback : jsval -> M jsval) : M jsval :=
  fun h => match array_elems h a with
           | Some elems =>
               (let* rs := map_loop a callback 0 (length elems) in
                alloc (OArray rs)) h
           | None => throw TypeError h
           end.

(** ** Constructors of the model classes ([./model]) *)

(** Modelled from the spec: the constructor
    [Control(value, validator, asyncValidator)] of [./model], which is not
    part of the sources here; a [Control] "holds a value and optional
    sync/async validators", and constructing one always succeeds with
    "no side effects beyond object construction". *)
Definition new_Control (value validator asyncValidator : jsval) : M jsval :=
  alloc (OControl value validator asyncValidator).

(** Modelled from the spec: the constructor
    [ControlGroup(controlsMap, optionals, validator, asyncValidator)] of
    [./model]; a [ControlGroup] is a "named mapping of field-name to
    control" that "holds optional 'optional fields' set and optional
    sync/async validators". *)
Definition new_ControlGroup
    (controls optionals validator asyncValidator : jsval) : M jsval :=
  alloc (OControlGroup controls optionals validator asyncValidator).

(** Modelled from the spec: the constructor
    [ControlArray(controlsList, validator, asyncValidator)] of [./model];
    a [ControlArray] is an "ordered sequence of controls" that "holds
    optional sync/async validators". *)
Definition new_ControlArray
    (controls validator asyncValidator : jsval) : M jsval :=
  alloc (OControlArray controls validator asyncValidator).

(** ** FormBuilder *)

Module FormBuilder.

(** [control(value, validator = null, asyncValidator = null)] *)
Definition control (value validator asyncValidator : jsval) : M jsval :=
  let validator := default_param validator VNull in
  let asyncValidator := default_param asyncValidator VNull in
  new_Control value validator asyncValidator.

(** [_createControl(controlConfig)] *)
Definition _createControl (controlConfig : jsval) : M jsval :=
  fun h =>
    if instanceof_Control h controlConfig
       || instanceof_ControlGroup h controlConfig
       || instanceof_ControlArray h controlConfig
    then Ok controlConfig h
    else if isArray h controlConfig then
      let value := index h controlConfig 0 in
      let validator :=
        if (1 <? array_length h controlConfig)%nat
        then index h controlConfig 1 else VNull in
      let asyncValidator :=
        if (2 <? array_length h controlConfig)%nat
        then index h controlConfig 2 else VNull in
      control value validator asyncValidator h
    else control controlConfig VUndefined VUndefined h.

(** [_reduceControls(controlsConfig)] *)
Definition _reduceControls (controlsConfig : jsval) : M jsval :=
  let* controls := alloc (OMap []) in
  do StringMapWrapper_forEach controlsConfig
       (fun controlConfig controlName =>
          let* c := _createControl controlConfig in
          set_property controls controlName c)
  then ret controls.

(** [group(controlsConfig, extra = null)] *)
Definition group (controlsConfig extra : jsval) : M jsval :=
  let extra := default_param extra VNull in
  let* controls := _reduceControls controlsConfig in
  let* optionals :=
    (if isPresent extra then StringMapWrapper_get extra "optionals"
     else ret VNull) in
  let* validator :=
    (if isPresent extra then StringMapWrapper_get extra "validator"
     else ret VNull) in
  let* asyncValidator :=
    (if isPresent extra then StringMapWrapper_get extra "asyncValidator"
     else ret VNull) in
  new_ControlGroup controls optionals validator asyncValidator.

(** [array(controlsConfig, validator = null, asyncValidator = null)] *)
Definition array (controlsConfig validator asyncValidator : jsval) : M jsval :=
  let validator := default_param validator VNull in
  let asyncValidator := default_param asyncValidator VNull in
  let* controls := Array_map controlsConfig (fun c => _createControl c) in
  new_ControlArray controls validator asyncValidator.

End FormBuilder.

Import FormBuilder.

(** ** Derived notions used in the statements *)

(** The instance test of [_createControl], as one predicate. *)
Definition is_instance (h : heap) (v : jsval) : bool :=
  instanceof_Control h v || instanceof_ControlGroup h v
  || instanceof_ControlArray h v.

(** The heap an outcome leaves behind, normal or abrupt. *)
Definition heap_of {A} (r : result A) : heap :=
  match r with
  | Ok _ h => h
  | Throw _ h => h
  end.


(** Calling the callback on each element in turn, left to right. *)
Fixpoint mapM {A B} (f : A -> M B) (l : list A) : M (list B) :=
  match l with
  | [] => ret []
  | x :: l' =>
      let* r := f x in
      let* rs := mapM f l' in
      ret (r :: rs)
  end.

(** The callback [_reduceControls] hands to [forEach], as a function of the
    object [controls] it fills. *)
Definition reduce_step (controls : jsval) : jsval -> string -> M unit :=
  fun controlConfig controlName =>
    let* c := _createControl controlConfig in
    set_property controls controlName c.

(** *** Well-formed heaps and relocation

    In a running program every reference points to an allocated object.
    [closed_val n v] says that [v], when a reference, points below [n];
    a heap is closed when all its objects only hold such references. *)
Definition closed_val (n : nat) (v : jsval) : bool :=
  match v with
  | VRef l => (l <? n)%nat
  | _ => true
  end.

Definition closed_obj (n : nat) (o : obj) : bool :=
  match o with
  | OArray elems => forallb (closed_val n) elems
  | OMap ps => forallb (fun p => closed_val n (snd p)) ps
  | OControl v a b => closed_val n v && closed_val n a && closed_val n b
  | OControlGroup c o a b =>
      closed_val n c && closed_val n o && closed_val n a && closed_val n b
  | OControlArray c a b => closed_val n c && closed_val n a && closed_val n b
  end.

Definition closed_heap (h : heap) : bool :=
  forallb (closed_obj (length h)) h.

(** Moving the objects allocated from reference [n] on up by [d] places:
    references below [n] stay, the others are renamed. *)
Definition shift_val (n d : nat) (v : jsval) : jsval :=
  match v with
  | VRef l => if (l <? n)%nat then VRef l else VRef (l + d)
  | _ => v
  end.

Definition shift_props (n d : nat) (ps : props) : props :=
  map (fun p => (fst p, shift_val n d (snd p))) ps.

Definition shift_obj (n d : nat) (o : obj) : obj :=
  match o with
  | OArray elems => OArray (map (shift_val n d) elems)
  | OMap ps => OMap (shift_props n d ps)
  | OControl v a b =>
      OControl (shift_val n d v) (shift_val n d a) (shift_val n d b)
  | OControlGroup c o a b =>
      OControlGroup (shift_val n d c) (shift_val n d o)
        (shift_val n d a) (shift_val n d b)
  | OControlArray c a b =>
      OControlArray (shift_val n d c) (shift_val n d a) (shift_val n d b)
  end.

(** The outcome of a call made on a heap of [n] objects, as it reads when
    other objects [ext] were allocated before the call: the objects of the
    call come after [ext], renamed accordingly. *)
Definition relocate (n : nat) (ext : heap) (r : result jsval) : result jsval :=
  match r with
  | Ok v hf =>
      Ok (shift_val n (length ext) v)
         (take n hf ++ ext ++ map (shift_obj n (length ext)) (drop n hf))
  | Throw e hf =>
      Throw e (take n hf ++ ext ++ map (shift_obj n (length ext)) (drop n hf))
  end.

(** *** Reading a built form

    [g.controls[k]] for a [ControlGroup] [g], and [a.controls[i]] for a
    [ControlArray] [a]: the control a built form holds under a name or at
    a position. *)
Definition group_field (h : heap) (g : jsval) (k : string) : option jsval :=
  match g with
  | VRef l =>
      match h !! l with
      | Some (OControlGroup controls _ _ _) =>
          match map_props h controls with
          | Some rs => get_prop k rs
          | None => None
          end
      | _ => None
      end
  | _ => None
  end.

Definition array_item (h : heap) (a : jsval) (i : nat) : option jsval :=
  match a with
  | VRef l =>
      match h !! l with
      | Some (OControlArray controls _ _) =>
          match array_elems h controls with
          | Some rs => rs !! i
          | None => None
          end
      | _ => None
      end
  | _ => None
  end.

(** Two names of a property table hold the same reference only if that
    reference lies below [n]. *)
Definition shares_only_below (n : nat) (ps : props) : Prop :=
  forall k1 k2 l, k1 <> k2 ->
    get_prop k1 ps = Some (VRef l) -> get_prop k2 ps = Some (VRef l) ->
    (l < n)%nat.

(** ** Sample heaps *)

Module Samples.

Definition required : jsval := VFun "Validators.required".
Definition asyncCheck : jsval := VFun "asyncValidator".

(** The login form of the class comment, with a few more nodes:
    0: [["secret", required]]   1: [[]]   2: a pre-built Control
    3: the configuration map   4: an extra map   5: an array of nodes
    6: [["secret", required, asyncCheck, "ignored"]]
    7: its first three elements   8: [["a"]]   9: the optionals of 4 *)
Definition login_heap : heap :=
  [ OArray [VStr "secret"; required];
    OArray [];
    OControl (VNum 1) VNull VNull;
    OMap [("login", VRef 0); ("prebuilt", VRef 2); ("raw", VStr "x")];
    OMap [("optionals", VRef 9)];
    OArray [VRef 0; VRef 2; VNum 5];
    OArray [VStr "secret"; required; asyncCheck; VStr "ignored"];
    OArray [VStr "secret"; required; asyncCheck];
    OArray [VStr "a"];
    OMap [("login", VBool true)] ].

(** The configuration [{x: ["a"], y: group({z: ["b"]})}] before the inner
    call: 0: [["a"]]   1: [["b"]]   2: [{z: ["b"]}] *)
Definition nesting_heap : heap :=
  [ OArray [VStr "a"]; OArray [VStr "b"]; OMap [("z", VRef 1)] ].

(** The mapping [{"__proto__": ["a"], "x": ["b"]}] as [JSON.parse] makes
    it, [__proto__] being an own key: 0: [["a"]]   1: [["b"]]
    2: the mapping *)
Definition proto_heap : heap :=
  [ OArray [VStr "a"]; OArray [VStr "b"];
    OMap [("__proto__", VRef 0); ("x", VRef 1)] ].

End Samples.

(** ** Basic facts about the primitives *)

Lemma default_param_present (arg d : jsval) :
  arg <> VUndefined -> default_param arg d = arg.
Proof. destruct arg; simpl; congruence. Qed.

(** An array is not an instance of a model class: the two tests never both
    hold of one reference. *)
Lemma array_not_instance (h : heap) (v : jsval) (elems : list jsval) :
  array_elems h v = Some elems -> is_instance h v = false.
Proof.
  unfold array_elems, is_instance, instanceof_Control,
    instanceof_ControlGroup, instanceof_ControlArray.
  destruct v as [| | | | | |l]; try discriminate.
  destruct (h !! l) as [[]|]; intros H; try discriminate; reflexivity.
Qed.

(** [control] only allocates: its outcome in closed form. *)
Lemma control_alloc (value validator asyncValidator : jsval) (h : heap) :
  control value validator asyncValidator h =
    Ok (VRef (length h))
       (h ++ [OControl value (default_param validator VNull)
                (default_param asyncValidator VNull)]).
Proof. reflexivity. Qed.

(** The three branches of [_createControl], one equation each. *)
Lemma _createControl_instance (c : jsval) (h : heap) :
  is_instance h c = true -> _createControl c h = Ok c h.
Proof. unfold _createControl, is_instance. intros ->. reflexivity. Qed.

Lemma _createControl_array (c : jsval) (h : heap) (elems : list jsval) :
  array_elems h c = Some elems ->
  _createControl c h =
    control (nth 0 elems VUndefined)
      (if (1 <? length elems)%nat then nth 1 elems VUndefined else VNull)
      (if (2 <? length elems)%nat then nth 2 elems VUndefined else VNull) h.
Proof.
  intros Harr. pose proof (array_not_instance _ _ _ Harr) as Hinst.
  unfold _createControl. fold (is_instance h c). rewrite Hinst.
  unfold isArray, index, array_length. rewrite Harr. reflexivity.
Qed.

Lemma _createControl_raw (c : jsval) (h : heap) :
  is_instance h c = false -> isArray h c = false ->
  _createControl c h = control c VUndefined VUndefined h.
Proof.
  intros Hinst Harr. unfold _createControl. fold (is_instance h c).
  rewrite Hinst, Harr. reflexivity.
Qed.

(** ** Claims about [control] and [_createControl] *)

(** C5: [control(v)] always succeeds and returns a new [Control] (a
    reference that was unused before the call) whose stored value is [v]
    and whose validators are none; a validator or async validator that is
    supplied is the one the returned [Control] holds. *)
Theorem control_wraps_arguments
    (v validator asyncValidator : jsval) (h : heap) :
  exists l hf stored_validator stored_asyncValidator,
    control v validator asyncValidator h = Ok (VRef l) hf /\
    h !! l = None /\
    hf !! l = Some (OControl v stored_validator stored_asyncValidator) /\
    (validator = VUndefined -> stored_validator = VNull) /\
    (validator <> VUndefined -> stored_validator = validator) /\
    (asyncValidator = VUndefined -> stored_asyncValidator = VNull) /\
    (asyncValidator <> VUndefined -> stored_asyncValidator = asyncValidator).
Proof.
  exists (length h), (h ++ [OControl v (default_param validator VNull)
                              (default_param asyncValidator VNull)]),
    (default_param validator VNull), (default_param asyncValidator VNull).
  split; [apply control_alloc|].
  split; [apply lookup_ge_None_2; lia|].
  split; [apply list_lookup_middle; reflexivity|].
  repeat split.
  - intros ->. reflexivity.
  - apply default_param_present.
  - intros ->. reflexivity.
  - apply default_param_present.
Qed.

(** C1: for an array-shaped node, element 0 is the initial value, element 1
    (when the length exceeds 1) the sync validator, element 2 (when the
    length exceeds 2) the async validator, a missing trailing validator is
    none, and the result is [control] applied to those three arguments: a
    new [Control] that holds them.  So [[v, val]] gives [control(v, val)]
    with no async validator and [[v]] gives [control(v)]. *)
Theorem createControl_array_positional
    (node : jsval) (elems : list jsval) (h : heap) :
  array_elems h node = Some elems ->
  _createControl node h =
    control (nth 0 elems VUndefined)
      (if (1 <? length elems)%nat then nth 1 elems VUndefined else VNull)
      (if (2 <? length elems)%nat then nth 2 elems VUndefined else VNull) h
  /\ (exists validator asyncValidator,
        _createControl node h =
          Ok (VRef (length h))
             (h ++ [OControl (nth 0 elems VUndefined) validator asyncValidator])
        /\ (forall val, elems !! 1 = Some val -> val <> VUndefined ->
              validator = val)
        /\ (forall aval, elems !! 2 = Some aval -> aval <> VUndefined ->
              asyncValidator = aval)
        /\ ((length elems <= 1)%nat -> validator = VNull)
        /\ ((length elems <= 2)%nat -> asyncValidator = VNull))
  /\ (forall v val aval rest, elems = v :: val :: aval :: rest ->
        _createControl node h = control v val aval h)
  /\ (forall v val, elems = [v; val] ->
        _createControl node h = control v val VNull h /\
        _createControl node h = control v val VUndefined h)
  /\ (forall v, elems = [v] ->
        _createControl node h = control v VNull VNull h /\
        _createControl node h = control v VUndefined VUndefined h).
Proof.
  intros Harr. pose proof (_createControl_array _ _ _ Harr) as E.
  split; [exact E|]. split; [|split; [|split]].
  - eexists _, _. split; [rewrite E; apply control_alloc|].
    split; [|split; [|split]].
    + intros val Hval Hdef.
      pose proof (lookup_lt_Some _ _ _ Hval) as Hlt.
      apply Nat.ltb_lt in Hlt. rewrite Hlt.
      rewrite (nth_lookup_Some _ _ _ _ Hval).
      apply default_param_present, Hdef.
    + intros aval Haval Hdef.
      pose proof (lookup_lt_Some _ _ _ Haval) as Hlt.
      apply Nat.ltb_lt in Hlt. rewrite Hlt.
      rewrite (nth_lookup_Some _ _ _ _ Haval).
      apply default_param_present, Hdef.
    + intros Hlen. destruct (Nat.ltb_spec 1 (length elems)); [lia|].
      reflexivity.
    + intros Hlen. destruct (Nat.ltb_spec 2 (length elems)); [lia|].
      reflexivity.
  - intros v val aval rest ->. exact E.
  - intros v val ->. split; exact E.
  - intros v ->. split; exact E.
Qed.

(** C3: a node that is already a [Control], [ControlGroup] or
    [ControlArray] instance is returned as it is, the same reference in an
    unchanged heap, whatever the later tests of the dispatch would say. *)
Theorem createControl_passthrough (c : jsval) (h : heap) :
  instanceof_Control h c = true \/ instanceof_ControlGroup h c = true
    \/ instanceof_ControlArray h c = true ->
  _createControl c h = Ok c h.
Proof.
  intros H. apply _createControl_instance. unfold is_instance.
  destruct H as [-> | [-> | ->]]; rewrite ?orb_true_r; reflexivity.
Qed.

(** C7: a node that is neither an instance of a model class nor an array is
    itself the initial value, without validators: the result is
    [control(node)], reached only when both earlier tests fail. *)
Theorem createControl_raw_value (node : jsval) (h : heap) :
  instanceof_Control h node = false ->
  instanceof_ControlGroup h node = false ->
  instanceof_ControlArray h node = false ->
  isArray h node = false ->
  _createControl node h = control node VUndefined VUndefined h /\
  _createControl node h =
    Ok (VRef (length h)) (h ++ [OControl node VNull VNull]).
Proof.
  intros H1 H2 H3 H4.
  assert (E : _createControl node h = control node VUndefined VUndefined h).
  { apply _createControl_raw; [|exact H4].
    unfold is_instance. rewrite H1, H2, H3. reflexivity. }
  split; [exact E|]. rewrite E. apply control_alloc.
Qed.



(** ** Traversals whose callback only allocates *)

Lemma array_elems_app (h ext : heap) (a : jsval) (elems : list jsval) :
  array_elems h a = Some elems -> array_elems (h ++ ext) a = Some elems.
Proof.
  unfold array_elems. destruct a as [| | | | | |l]; try discriminate.
  destruct (h !! l) as [o|] eqn:E; [|discriminate].
  rewrite (lookup_app_l_Some _ _ _ _ E). trivial.
Qed.

Lemma map_props_app (h ext : heap) (m : jsval) (ps : props) :
  map_props h m = Some ps -> map_props (h ++ ext) m = Some ps.
Proof.
  unfold map_props. destruct m as [| | | | | |l]; try discriminate.
  destruct (h !! l) as [o|] eqn:E; [|discriminate].
  rewrite (lookup_app_l_Some _ _ _ _ E). trivial.
Qed.

Section Traversal.

Variable f : jsval -> M jsval.
Hypothesis f_allocates :
  forall x h, exists r new, f x h = Ok r (h ++ new).

Lemma mapM_allocates (l : list jsval) (h : heap) :
  exists rs new,
    mapM f l h = Ok rs (h ++ new) /\
    length rs = length l /\
    forall i x, l !! i = Some x ->
      exists r ha hb,
        rs !! i = Some r /\ f x ha = Ok r hb /\
        h `prefix_of` ha /\ hb `prefix_of` h ++ new.
Proof.
  revert h. induction l as [|x l IH]; intros h.
  - exists [], []. rewrite app_nil_r. repeat split; trivial.
    intros i x Hi. rewrite lookup_nil in Hi. discriminate.
  - destruct (f_allocates x h) as (r & n1 & Hf).
    destruct (IH (h ++ n1)) as (rs & n2 & Hm & Hlen & Hel).
    exists (r :: rs), (n1 ++ n2).
    split; [|split].
    + simpl. unfold bind, ret. rewrite Hf, Hm, app_assoc. reflexivity.
    + simpl. congruence.
    + intros [|i] y Hi; simpl in Hi.
      * injection Hi as <-. exists r, h, (h ++ n1).
        repeat split; trivial.
        rewrite app_assoc. apply prefix_app_r. reflexivity.
      * destruct (Hel i y Hi) as (r' & ha & hb & Hr & Hfy & Hpa & Hpb).
        exists r', ha, hb. repeat split; trivial.
        -- etrans; [|exact Hpa]. apply prefix_app_r. reflexivity.
        -- rewrite app_assoc. exact Hpb.
Qed.

(** The loop of [map], which reads the array as it goes, visits the
    elements the array had on entry. *)
Lemma map_loop_mapM (a : jsval) (elems : list jsval) (n i : nat) (h : heap) :
  array_elems h a = Some elems ->
  i + n = length elems ->
  map_loop a f i n h = mapM f (drop i elems) h.
Proof.
  revert i h. induction n as [|n IH]; intros i h Harr Hlen.
  - rewrite drop_ge by lia. reflexivity.
  - destruct (lookup_lt_is_Some_2 elems i) as [x Hx]; [lia|].
    rewrite (drop_S _ _ _ Hx). simpl. unfold bind at 1 3.
    unfold index. rewrite Harr, (nth_lookup_Some _ _ _ _ Hx).
    destruct (f_allocates x h) as (r & n1 & Hf). rewrite Hf.
    unfold bind. rewrite IH; [reflexivity| |lia].
    apply array_elems_app, Harr.
Qed.

End Traversal.

Lemma _createControl_allocates (c : jsval) (h : heap) :
  exists r new, _createControl c h = Ok r (h ++ new).
Proof.
  unfold _createControl. destruct (_ || _).
  - exists c, []. rewrite app_nil_r. reflexivity.
  - destruct (isArray h c); rewrite control_alloc; eauto.
Qed.

(** [array] maps [_createControl] over the elements the array had on
    entry, then allocates the array of results and the [ControlArray]. *)
Lemma array_run (a validator asyncValidator : jsval) (elems rs : list jsval)
    (h h1 : heap) :
  array_elems h a = Some elems ->
  mapM _createControl elems h = Ok rs h1 ->
  array a validator asyncValidator h =
    Ok (VRef (S (length h1)))
       (h1 ++ [OArray rs;
               OControlArray (VRef (length h1))
                 (default_param validator VNull)
                 (default_param asyncValidator VNull)]).
Proof.
  intros Harr Hm. unfold array, bind, Array_map. rewrite Harr. unfold bind.
  rewrite (map_loop_mapM _ _createControl_allocates a elems _ 0 h Harr)
    by reflexivity.
  rewrite drop_0, Hm. unfold alloc, new_ControlArray, alloc.
  rewrite length_app, <- app_assoc. simpl. rewrite Nat.add_1_r. reflexivity.
Qed.

(** ** Claim about [array] *)

(** C4: [array(a)] builds a [ControlArray] over a new array whose elements
    are the results of [_createControl] on the elements of [a], one call
    per element from left to right, element [i] of the result coming from
    element [i] of [a]; the validator and async validator given (none when
    left out) are handed to the [ControlArray]. *)
Theorem array_resolves_in_order
    (a validator asyncValidator : jsval) (elems : list jsval) (h : heap) :
  array_elems h a = Some elems ->
  exists rs h1,
    mapM _createControl elems h = Ok rs h1 /\
    array a validator asyncValidator h =
      Ok (VRef (S (length h1)))
         (h1 ++ [OArray rs;
                 OControlArray (VRef (length h1))
                   (default_param validator VNull)
                   (default_param asyncValidator VNull)]) /\
    length rs = length elems /\
    forall i c, elems !! i = Some c ->
      exists r ha hb,
        rs !! i = Some r /\ _createControl c ha = Ok r hb /\
        h `prefix_of` ha /\ hb `prefix_of` h1.
Proof.
  intros Harr.
  destruct (mapM_allocates _ _createControl_allocates elems h)
    as (rs & new & Hm & Hlen & Hel).
  exists rs, (h ++ new). split; [exact Hm|]. split; [|split; trivial].
  apply (array_run _ _ _ _ _ _ _ Harr Hm).
Qed.

(** ** Property tables: reading after writing *)

Lemma get_prop_set_prop_eq (k : string) (v : jsval) (ps : props) :
  get_prop k (set_prop k v ps) = Some v.
Proof.
  induction ps as [|[k' v'] ps IH]; simpl.
  - rewrite String.eqb_refl. reflexivity.
  - destruct (String.eqb k k') eqn:E; simpl; rewrite ?E, ?String.eqb_refl;
      trivial.
Qed.

Lemma get_prop_set_prop_ne (k k' : string) (v : jsval) (ps : props) :
  k' <> k -> get_prop k' (set_prop k v ps) = get_prop k' ps.
Proof.
  intros Hne. induction ps as [|[k0 v0] ps IH]; simpl.
  - apply String.eqb_neq in Hne. rewrite Hne. reflexivity.
  - destruct (String.eqb k k0) eqn:E; simpl.
    + apply String.eqb_eq in E. subst k0.
      apply String.eqb_neq in Hne. rewrite Hne. reflexivity.
    + destruct (String.eqb k' k0); trivial.
Qed.

Lemma get_prop_is_Some (k : string) (ps : props) :
  is_Some (get_prop k ps) <-> k ∈ keys ps.
Proof.
  induction ps as [|[k' v'] ps IH]; simpl.
  - split; [intros [x Hx]; discriminate | intros H; inversion H].
  - destruct (String.eqb k k') eqn:E.
    + apply String.eqb_eq in E. subst k'. split; [|eauto]. intros _. left.
    + apply String.eqb_neq in E. rewrite IH. split.
      * intros H. right. exact H.
      * intros H. inversion H; subst; [congruence | assumption].
Qed.

Lemma keys_set_prop (k k' : string) (v : jsval) (ps : props) :
  k' ∈ keys (set_prop k v ps) <-> k' = k \/ k' ∈ keys ps.
Proof.
  rewrite <- !get_prop_is_Some. destruct (decide (k' = k)) as [->|Hne].
  - rewrite get_prop_set_prop_eq. split; eauto.
  - rewrite get_prop_set_prop_ne by exact Hne. tauto.
Qed.

Lemma NoDup_keys_set_prop (k : string) (v : jsval) (ps : props) :
  NoDup (keys ps) -> NoDup (keys (set_prop k v ps)).
Proof.
  induction ps as [|[k' v'] ps IH]; simpl; intros Hnd.
  - apply NoDup_singleton.
  - apply NoDup_cons in Hnd as [Hnotin Hnd].
    destruct (String.eqb k k') eqn:E; simpl.
    + apply String.eqb_eq in E. subst k'. apply NoDup_cons. split; trivial.
    + apply String.eqb_neq in E. apply NoDup_cons. split; [|auto].
      fold (keys (set_prop k v ps)). rewrite keys_set_prop.
      intros [->|H]; [congruence | contradiction].
Qed.

(** The same for an assignment [o[k] = v]. *)

Lemma assign_prop_other (k : string) (v : jsval) (ps : props) :
  k <> "__proto__" -> assign_prop k v ps = set_prop k v ps.
Proof.
  intros Hk. unfold assign_prop. apply String.eqb_neq in Hk. rewrite Hk.
  reflexivity.
Qed.

Lemma get_prop_assign_prop_eq (k : string) (v : jsval) (ps : props) :
  k <> "__proto__" -> get_prop k (assign_prop k v ps) = Some v.
Proof.
  intros Hk. rewrite assign_prop_other by exact Hk.
  apply get_prop_set_prop_eq.
Qed.

Lemma get_prop_assign_prop_ne (k k' : string) (v : jsval) (ps : props) :
  k' <> k -> get_prop k' (assign_prop k v ps) = get_prop k' ps.
Proof.
  intros Hne. unfold assign_prop. destruct (String.eqb k "__proto__").
  - reflexivity.
  - apply get_prop_set_prop_ne, Hne.
Qed.

Lemma keys_assign_prop (k k' : string) (v : jsval) (ps : props) :
  k' ∈ keys (assign_prop k v ps)
  <-> (k' = k /\ k <> "__proto__") \/ k' ∈ keys ps.
Proof.
  unfold assign_prop. destruct (String.eqb k "__proto__") eqn:E.
  - apply String.eqb_eq in E. split; [auto|]. intros [[_ H]|H]; [|exact H].
    contradiction.
  - apply String.eqb_neq in E. rewrite keys_set_prop. tauto.
Qed.

Lemma NoDup_keys_assign_prop (k : string) (v : jsval) (ps : props) :
  NoDup (keys ps) -> NoDup (keys (assign_prop k v ps)).
Proof.
  unfold assign_prop. destruct (String.eqb k "__proto__"); [trivial|].
  apply NoDup_keys_set_prop.
Qed.

(** ** What [_createControl] returns *)

Lemma is_instance_lookup (h : heap) (r : jsval) :
  is_instance h r = true ->
  exists l o, r = VRef l /\ h !! l = Some o /\ forall ps, o <> OMap ps.
Proof.
  unfold is_instance, instanceof_Control, instanceof_ControlGroup,
    instanceof_ControlArray.
  destruct r as [| | | | | |l]; try discriminate.
  destruct (h !! l) as [o|] eqn:E; [|discriminate].
  intros H. exists l, o. split; [reflexivity|]. split; [exact E|].
  intros ps ->. discriminate.
Qed.

(** Whatever the node, the result refers to an instance of a model class. *)
Lemma _createControl_returns_instance (c r : jsval) (h h' : heap) :
  _createControl c h = Ok r h' -> is_instance h' r = true.
Proof.
  unfold _createControl. fold (is_instance h c).
  destruct (is_instance h c) eqn:Hinst.
  - intros [= <- <-]. exact Hinst.
  - assert (forall v a b, control v a b h = Ok r h' -> is_instance h' r = true)
      as Hctl.
    { intros v a b. rewrite control_alloc. intros [= <- <-].
      unfold is_instance, instanceof_Control. cbn.
      rewrite list_lookup_middle by reflexivity. reflexivity. }
    destruct (isArray h c); apply Hctl.
Qed.

(** Replacing the object at the end of [h] and allocating further objects
    leaves every other object in place. *)
Lemma lookup_around (h t t' : heap) (o o' : obj) (l : nat) :
  l <> length h -> (l < length (h ++ o :: t))%nat ->
  (h ++ o' :: (t ++ t')) !! l = (h ++ o :: t) !! l.
Proof.
  intros Hne Hlt. rewrite length_app in Hlt. simpl in Hlt.
  destruct (decide (l < length h)%nat) as [Hl|Hl].
  - rewrite !lookup_app_l by exact Hl. reflexivity.
  - rewrite !lookup_app_r by lia.
    destruct (l - length h) as [|j] eqn:E; [lia|]. simpl.
    apply lookup_app_l. lia.
Qed.

(** ** The loop of [_reduceControls] *)

(** One turn of the loop: the node is resolved, and the result is assigned
    under its name to the map being filled, which sits right after [h]. *)
Lemma reduce_step_run (h ctrls new : heap) (acc : props)
    (c r : jsval) (k : string) :
  _createControl c (h ++ OMap acc :: ctrls)
    = Ok r ((h ++ OMap acc :: ctrls) ++ new) ->
  reduce_step (VRef (length h)) c k (h ++ OMap acc :: ctrls)
    = Ok tt (h ++ OMap (assign_prop k r acc) :: (ctrls ++ new)).
Proof.
  intros Hc. unfold reduce_step, bind. rewrite Hc. unfold set_property.
  rewrite <- app_assoc. simpl.
  rewrite list_lookup_middle by reflexivity.
  rewrite insert_app_r_alt by lia. rewrite Nat.sub_diag. reflexivity.
Qed.

(** The loop runs to its end and only fills the map and allocates. *)
Lemma forEach_keys_shape (m : jsval) (h : heap) (ks : list string) :
  forall (acc : props) (ctrls : heap),
  exists acc' new,
    forEach_keys m ks (reduce_step (VRef (length h))) (h ++ OMap acc :: ctrls)
      = Ok tt (h ++ OMap acc' :: (ctrls ++ new)).
Proof.
  induction ks as [|k ks IH]; intros acc ctrls.
  - exists acc, []. rewrite app_nil_r. reflexivity.
  - assert (exists acc' new,
              forEach_keys m ks (reduce_step (VRef (length h)))
                (h ++ OMap acc :: ctrls)
              = Ok tt (h ++ OMap acc' :: (ctrls ++ new))) as Hskip
      by apply IH.
    cbn [forEach_keys].
    destruct (map_props (h ++ OMap acc :: ctrls) m) as [ps|]; [|exact Hskip].
    destruct (get_prop k ps) as [c|]; [|exact Hskip].
    destruct (_createControl_allocates c (h ++ OMap acc :: ctrls))
      as (r & n1 & Hc).
    destruct (IH (assign_prop k r acc) (ctrls ++ n1))
      as (acc' & n2 & Hrest).
    exists acc', (n1 ++ n2). unfold bind at 1.
    rewrite (reduce_step_run _ _ _ _ _ _ _ Hc), Hrest, app_assoc.
    reflexivity.
Qed.

(** The loop over the keys of a map [ps] that lives in [h]: what the filled
    map holds at the end. *)
Lemma forEach_keys_fills (m : jsval) (h : heap) (ps : props)
    (ks : list string) :
  map_props h m = Some ps ->
  forall (acc : props) (ctrls : heap),
  exists acc' new,
    forEach_keys m ks (reduce_step (VRef (length h))) (h ++ OMap acc :: ctrls)
      = Ok tt (h ++ OMap acc' :: (ctrls ++ new)) /\
    (forall k,
       k ∈ keys acc' <->
       k ∈ keys acc \/ (k ∈ ks /\ k ∈ keys ps /\ k <> "__proto__")) /\
    (NoDup (keys acc) -> NoDup (keys acc')) /\
    (forall k, k ∉ ks -> get_prop k acc' = get_prop k acc) /\
    (forall k c, k ∈ ks -> k <> "__proto__" -> get_prop k ps = Some c ->
       exists r ha hb,
         get_prop k acc' = Some r /\ _createControl c ha = Ok r hb /\
         h `prefix_of` ha /\
         forall l, r = VRef l ->
           (h ++ OMap acc' :: (ctrls ++ new)) !! l = hb !! l).
Proof.
  intros Hm. induction ks as [|k ks IH]; intros acc ctrls.
  - exists acc, []. rewrite app_nil_r. split; [reflexivity|].
    split; [|split; [trivial|split; [trivial|]]].
    + intros k. split; [auto|]. intros [H|[H _]]; [exact H|inversion H].
    + intros k c H. inversion H.
  - cbn [forEach_keys].
    rewrite (map_props_app _ (OMap acc :: ctrls) _ _ Hm).
    destruct (get_prop k ps) as [c|] eqn:Hk.
    + destruct (_createControl_allocates c (h ++ OMap acc :: ctrls))
        as (r & n1 & Hc).
      destruct (IH (assign_prop k r acc) (ctrls ++ n1))
        as (acc' & n2 & Hrun & Hkeys & Hnd & Hout & Hin).
      exists acc', (n1 ++ n2). unfold bind at 1.
      rewrite (reduce_step_run _ _ _ _ _ _ _ Hc), Hrun, app_assoc.
      split; [reflexivity|]. split; [|split; [|split]].
      * intros k'. rewrite Hkeys, keys_assign_prop, elem_of_cons.
        assert (k ∈ keys ps) by (apply get_prop_is_Some; eauto).
        split.
        -- intros [[[-> ?]|?]|(? & ? & ?)]; auto 6.
        -- intros [?|([->|?] & ? & ?)]; auto 6.
      * intros H. apply Hnd, NoDup_keys_assign_prop, H.
      * intros k' Hk'. rewrite not_elem_of_cons in Hk'.
        destruct Hk' as [Hne Hk']. rewrite (Hout k' Hk').
        apply get_prop_assign_prop_ne, Hne.
      * intros k' c' Hk' Hproto Hc'.
        destruct (decide (k' ∈ ks)) as [Hmem|Hmem].
        { exact (Hin k' c' Hmem Hproto Hc'). }
        apply elem_of_cons in Hk'. destruct Hk' as [->|Hk']; [|contradiction].
        assert (c' = c) as -> by congruence.
        exists r, (h ++ OMap acc :: ctrls),
          ((h ++ OMap acc :: ctrls) ++ n1).
        split; [rewrite (Hout k Hmem);
                apply get_prop_assign_prop_eq, Hproto|].
        split; [exact Hc|]. split; [apply prefix_app_r; reflexivity|].
        intros l ->.
        destruct (is_instance_lookup _ _
                    (_createControl_returns_instance _ _ _ _ Hc))
          as (l' & o & [= <-] & Hl & Hnomap).
        rewrite <- (app_assoc h _ n1). simpl.
        apply lookup_around.
        -- intros ->. rewrite <- app_assoc in Hl. simpl in Hl.
           rewrite list_lookup_middle in Hl by reflexivity.
           injection Hl as <-. exact (Hnomap acc eq_refl).
        -- rewrite <- app_assoc in Hl. simpl in Hl.
           exact (lookup_lt_Some _ _ _ Hl).
    + destruct (IH acc ctrls) as (acc' & new & Hrun & Hkeys & Hnd & Hout & Hin).
      assert (k ∉ keys ps) as Hnk.
      { rewrite <- get_prop_is_Some, Hk. intros [x Hx]. discriminate. }
      exists acc', new. split; [exact Hrun|].
      split; [|split; [exact Hnd|split]].
      * intros k'. rewrite Hkeys, elem_of_cons.
        split; [intros [?|(? & ? & ?)]|intros [?|([->|?] & ? & ?)]];
          auto 6; contradiction.
      * intros k' Hk'. rewrite not_elem_of_cons in Hk'. apply Hout, Hk'.
      * intros k' c' Hk' Hproto Hc'. apply elem_of_cons in Hk'.
        destruct Hk' as [->|Hk']; [congruence|].
        exact (Hin k' c' Hk' Hproto Hc').
Qed.

(** ** [_reduceControls] and [group] *)

Lemma _reduceControls_shape (m : jsval) (h : heap) :
  exists rs new,
    _reduceControls m h = Ok (VRef (length h)) (h ++ OMap rs :: new).
Proof.
  unfold _reduceControls. unfold bind at 1. unfold alloc.
  change (fun controlConfig controlName =>
            bind (_createControl controlConfig)
              (fun c => set_property (VRef (length h)) controlName c))
    with (reduce_step (VRef (length h))).
  unfold bind, StringMapWrapper_forEach.
  destruct (map_props (h ++ [OMap []]) m) as [ps|].
  - destruct (forEach_keys_shape m h (keys ps) [] []) as (rs & new & Hrun).
    rewrite Hrun. exists rs, new. reflexivity.
  - exists [], []. reflexivity.
Qed.

Lemma _reduceControls_fills (m : jsval) (h : heap) (ps : props) :
  map_props h m = Some ps ->
  exists rs new,
    _reduceControls m h = Ok (VRef (length h)) (h ++ OMap rs :: new) /\
    (forall k, k ∈ keys rs <-> k ∈ keys ps /\ k <> "__proto__") /\
    NoDup (keys rs) /\
    (forall k c, k <> "__proto__" -> get_prop k ps = Some c ->
       exists r ha hb,
         get_prop k rs = Some r /\ _createControl c ha = Ok r hb /\
         h `prefix_of` ha /\
         forall l, r = VRef l -> (h ++ OMap rs :: new) !! l = hb !! l).
Proof.
  intros Hm.
  unfold _reduceControls. unfold bind at 1. unfold alloc.
  change (fun controlConfig controlName =>
            bind (_createControl controlConfig)
              (fun c => set_property (VRef (length h)) controlName c))
    with (reduce_step (VRef (length h))).
  unfold bind, StringMapWrapper_forEach.
  rewrite (map_props_app _ [OMap []] _ _ Hm).
  destruct (forEach_keys_fills m h ps (keys ps) Hm [] [])
    as (rs & new & Hrun & Hkeys & Hnd & _ & Hin).
  rewrite Hrun. exists rs, new. split; [reflexivity|].
  split; [|split].
  - intros k. rewrite Hkeys. split.
    + intros [H|(_ & H1 & H2)]; [inversion H | auto].
    + intros [H1 H2]. right. auto.
  - apply Hnd. apply NoDup_nil_2.
  - intros k c Hproto Hk. apply (Hin k c); [|exact Hproto|exact Hk].
    apply get_prop_is_Some. eauto.
Qed.

(** The option [group] reads from [extra] under [key]. *)
Lemma extra_option_run (extra : jsval) (key : string) (h : heap) :
  exists o,
    (if isPresent (default_param extra VNull)
     then StringMapWrapper_get (default_param extra VNull) key
     else ret VNull) h = Ok o h /\
    (isPresent extra = false -> o = VNull) /\
    (forall eps, map_props h extra = Some eps ->
       o = default VUndefined (get_prop key eps)).
Proof.
  destruct extra as [| | | | | |l]; simpl;
    try (eexists; split; [reflexivity|]; split;
         [reflexivity || discriminate | intros eps; discriminate]).
  unfold StringMapWrapper_get, map_props.
  destruct (h !! l) as [[]|];
    try (eexists; split; [reflexivity|]; split;
         [discriminate | intros eps; discriminate]).
  destruct (get_prop key ps) as [v|] eqn:E;
    (eexists; split; [reflexivity|]; split;
     [discriminate | intros eps [= <-]; rewrite E; reflexivity]).
Qed.

(** [group] runs [_reduceControls], reads the three options and allocates
    the [ControlGroup]. *)
Lemma group_run (m extra : jsval) (h h1 : heap) (controls : jsval) :
  _reduceControls m h = Ok controls h1 ->
  (forall eps, map_props h extra = Some eps ->
     map_props h1 extra = Some eps) ->
  exists optionals validator asyncValidator,
    group m extra h =
      Ok (VRef (length h1))
         (h1 ++ [OControlGroup controls optionals validator asyncValidator]) /\
    (isPresent extra = false ->
       optionals = VNull /\ validator = VNull /\ asyncValidator = VNull) /\
    (forall eps, map_props h extra = Some eps ->
       optionals = default VUndefined (get_prop "optionals" eps) /\
       validator = default VUndefined (get_prop "validator" eps) /\
       asyncValidator = default VUndefined (get_prop "asyncValidator" eps)).
Proof.
  intros Hred Hstable.
  destruct (extra_option_run extra "optionals" h1) as (o & Ho & Ho1 & Ho2).
  destruct (extra_option_run extra "validator" h1) as (v & Hv & Hv1 & Hv2).
  destruct (extra_option_run extra "asyncValidator" h1)
    as (av & Hav & Hav1 & Hav2).
  exists o, v, av. split; [|split].
  - unfold group, bind. rewrite Hred, Ho, Hv, Hav. reflexivity.
  - auto.
  - intros eps Heps. pose proof (Hstable eps Heps). auto.
Qed.

(** For a mapping [m] from field name to configuration node, [group(m)]
    produces a [ControlGroup] over a new map whose keys are the keys of [m]
    other than [__proto__], and which holds under each such key [k] the
    control that [_createControl] returned for [m[k]], unchanged since
    that call. *)
Lemma group_resolves_other_fields (m extra : jsval) (ps : props) (h : heap) :
  map_props h m = Some ps ->
  exists lg lc hf rs optionals validator asyncValidator,
    group m extra h = Ok (VRef lg) hf /\
    h !! lg = None /\ h !! lc = None /\
    hf !! lg =
      Some (OControlGroup (VRef lc) optionals validator asyncValidator) /\
    hf !! lc = Some (OMap rs) /\
    (forall k, k ∈ keys rs <-> k ∈ keys ps /\ k <> "__proto__") /\
    NoDup (keys rs) /\
    (forall k c, k <> "__proto__" -> get_prop k ps = Some c ->
       exists r ha hb,
         get_prop k rs = Some r /\ _createControl c ha = Ok r hb /\
         h `prefix_of` ha /\
         forall l, r = VRef l -> hf !! l = hb !! l).
Proof.
  intros Hm.
  destruct (_reduceControls_fills m h ps Hm)
    as (rs & new & Hred & Hkeys & Hnd & Hin).
  destruct (group_run m extra h _ _ Hred) as (o & v & av & Hrun & _).
  { intros eps. apply map_props_app. }
  exists (length (h ++ OMap rs :: new)), (length h),
    ((h ++ OMap rs :: new) ++ [OControlGroup (VRef (length h)) o v av]),
    rs, o, v, av.
  split; [exact Hrun|].
  split; [apply lookup_ge_None_2; rewrite length_app; lia|].
  split; [apply lookup_ge_None_2; lia|].
  split; [apply list_lookup_middle; reflexivity|].
  split; [rewrite <- app_assoc; apply list_lookup_middle; reflexivity|].
  split; [exact Hkeys|]. split; [exact Hnd|].
  intros k c Hproto Hk.
  destruct (Hin k c Hproto Hk) as (r & ha & hb & Hr & Hc & Hpre & Hl).
  exists r, ha, hb. repeat (split; [assumption|]).
  intros l ->. rewrite <- (Hl l eq_refl).
  destruct (is_instance_lookup _ _
              (_createControl_returns_instance _ _ _ _ Hc))
    as (l' & o' & [= <-] & Hhb & _).
  rewrite <- (Hl l eq_refl) in Hhb.
  rewrite Hhb. apply (lookup_app_l_Some _ _ _ _ Hhb).
Qed.

(** C2: the key set of the group is not always the key set of [m].  For
    the mapping [{"__proto__": ["a"], "x": ["b"]}] (as [JSON.parse] makes
    it, with [__proto__] an own key) the loop of [_reduceControls] resolves
    both nodes, but the assignment [controls["__proto__"] = ...] stores
    nothing: the group is built over a map whose only key is [x], and it
    has no field [__proto__]. *)
Theorem group_loses_proto_field :
  map_props Samples.proto_heap (VRef 2)
    = Some [("__proto__", VRef 0); ("x", VRef 1)] /\
  group (VRef 2) VUndefined Samples.proto_heap
    = Ok (VRef 6)
         (Samples.proto_heap ++
            [ OMap [("x", VRef 5)];
              OControl (VStr "a") VNull VNull;
              OControl (VStr "b") VNull VNull;
              OControlGroup (VRef 3) VNull VNull VNull ]) /\
  group_field
    (heap_of (group (VRef 2) VUndefined Samples.proto_heap))
    (VRef 6) "__proto__" = None /\
  group_field
    (heap_of (group (VRef 2) VUndefined Samples.proto_heap))
    (VRef 6) "x" = Some (VRef 5).
Proof. repeat split; vm_compute; reflexivity. Qed.

(** C6: the [ControlGroup] that [group(m, extra)] produces holds as its
    optionals, validator and async validator what [extra] stores under the
    keys [optionals], [validator] and [asyncValidator]; when [extra] is
    left out (or null) all three are null, and an option whose key is
    missing from [extra] is none. *)
Theorem group_extra_options (m extra : jsval) (h : heap) :
  exists lg hf controls optionals validator asyncValidator,
    group m extra h = Ok (VRef lg) hf /\
    hf !! lg =
      Some (OControlGroup controls optionals validator asyncValidator) /\
    (isPresent extra = false ->
       optionals = VNull /\ validator = VNull /\ asyncValidator = VNull) /\
    (forall eps, map_props h extra = Some eps ->
       (forall o, get_prop "optionals" eps = Some o -> optionals = o) /\
       (forall v, get_prop "validator" eps = Some v -> validator = v) /\
       (forall v, get_prop "asyncValidator" eps = Some v ->
          asyncValidator = v) /\
       (get_prop "optionals" eps = None -> isPresent optionals = false) /\
       (get_prop "validator" eps = None -> isPresent validator = false) /\
       (get_prop "asyncValidator" eps = None ->
          isPresent asyncValidator = false)).
Proof.
  destruct (_reduceControls_shape m h) as (rs & new & Hred).
  destruct (group_run m extra h _ _ Hred) as (o & v & av & Hrun & Hnone & Hmap).
  { intros eps. apply map_props_app. }
  exists (length (h ++ OMap rs :: new)),
    ((h ++ OMap rs :: new) ++ [OControlGroup (VRef (length h)) o v av]),
    (VRef (length h)), o, v, av.
  split; [exact Hrun|].
  split; [apply list_lookup_middle; reflexivity|].
  split; [exact Hnone|].
  intros eps Heps. destruct (Hmap eps Heps) as (-> & -> & ->).
  repeat split; intros; repeat match goal with
                               | H : get_prop _ _ = _ |- _ => rewrite H
                               end; reflexivity.
Qed.

(** ** Closed values and relocation *)

Lemma shift_val_closed (n d : nat) (v : jsval) :
  closed_val n v = true -> shift_val n d v = v.
Proof. destruct v; simpl; trivial. intros ->. reflexivity. Qed.

Lemma shift_val_fresh (n d l : nat) :
  (n <= l)%nat -> shift_val n d (VRef l) = VRef (l + d).
Proof.
  intros H. simpl. destruct (Nat.ltb_spec l n); [lia | reflexivity].
Qed.

Lemma shift_vals_closed (n d : nat) (vs : list jsval) :
  forallb (closed_val n) vs = true -> map (shift_val n d) vs = vs.
Proof.
  induction vs as [|v vs IH]; simpl; [trivial|].
  intros [Hv Hvs]%andb_true_iff.
  rewrite (shift_val_closed _ _ _ Hv), IH; trivial.
Qed.

Lemma shift_props_closed (n d : nat) (ps : props) :
  forallb (fun p => closed_val n (snd p)) ps = true -> shift_props n d ps = ps.
Proof.
  unfold shift_props. induction ps as [|[k v] ps IH]; simpl; [trivial|].
  intros [Hv Hps]%andb_true_iff.
  rewrite (shift_val_closed _ _ _ Hv), IH; trivial.
Qed.

Lemma shift_obj_closed (n d : nat) (o : obj) :
  closed_obj n o = true -> shift_obj n d o = o.
Proof.
  destruct o; simpl; intros H;
    repeat (apply andb_true_iff in H as [H ?]);
    rewrite ?shift_val_closed, ?shift_vals_closed, ?shift_props_closed;
    trivial.
Qed.

Lemma shift_objs_closed (n d : nat) (os : heap) :
  forallb (closed_obj n) os = true -> map (shift_obj n d) os = os.
Proof.
  induction os as [|o os IH]; simpl; [trivial|].
  intros [Ho Hos]%andb_true_iff.
  rewrite (shift_obj_closed _ _ _ Ho), IH; trivial.
Qed.

Lemma shift_props_set_prop (n d : nat) (k : string) (v : jsval) (ps : props) :
  shift_props n d (set_prop k v ps)
    = set_prop k (shift_val n d v) (shift_props n d ps).
Proof.
  unfold shift_props. induction ps as [|[k' v'] ps IH]; simpl; [reflexivity|].
  destruct (String.eqb k k'); simpl; [reflexivity|].
  rewrite IH. reflexivity.
Qed.

Lemma shift_props_assign_prop (n d : nat) (k : string) (v : jsval)
    (ps : props) :
  shift_props n d (assign_prop k v ps)
    = assign_prop k (shift_val n d v) (shift_props n d ps).
Proof.
  unfold assign_prop. destruct (String.eqb k "__proto__"); [reflexivity|].
  apply shift_props_set_prop.
Qed.

Lemma closed_heap_lookup (h : heap) (l : nat) (o : obj) :
  closed_heap h = true -> h !! l = Some o -> closed_obj (length h) o = true.
Proof.
  unfold closed_heap. rewrite forallb_forall. intros Hall Hl.
  apply Hall. apply list_elem_of_In. apply list_elem_of_lookup. eauto.
Qed.

Lemma closed_nth (n i : nat) (vs : list jsval) :
  forallb (closed_val n) vs = true -> closed_val n (nth i vs VUndefined) = true.
Proof.
  rewrite forallb_forall. intros Hall.
  destruct (nth_in_or_default i vs VUndefined) as [Hin | ->]; auto.
Qed.

Lemma closed_get_prop (n : nat) (k : string) (ps : props) (v : jsval) :
  forallb (fun p => closed_val n (snd p)) ps = true ->
  get_prop k ps = Some v -> closed_val n v = true.
Proof.
  induction ps as [|[k' v'] ps IH]; simpl; [discriminate|].
  intros [Hv Hps]%andb_true_iff. destruct (String.eqb k k').
  - intros [= <-]. exact Hv.
  - apply IH, Hps.
Qed.

Lemma closed_default_param (n : nat) (v : jsval) :
  closed_val n v = true -> closed_val n (default_param v VNull) = true.
Proof. destruct v; trivial. Qed.

(** Reading through a closed reference ignores whatever follows [h]. *)
Lemma closed_lookup_app (h ext : heap) (l : nat) :
  closed_val (length h) (VRef l) = true -> (h ++ ext) !! l = h !! l.
Proof. simpl. intros H%Nat.ltb_lt. apply lookup_app_l, H. Qed.

Lemma closed_array_elems (h ext : heap) (v : jsval) :
  closed_val (length h) v = true -> array_elems (h ++ ext) v = array_elems h v.
Proof.
  destruct v; trivial. intros H. unfold array_elems.
  rewrite (closed_lookup_app _ _ _ H). reflexivity.
Qed.

Lemma closed_map_props (h ext : heap) (v : jsval) :
  closed_val (length h) v = true -> map_props (h ++ ext) v = map_props h v.
Proof.
  destruct v; trivial. intros H. unfold map_props.
  rewrite (closed_lookup_app _ _ _ H). reflexivity.
Qed.

Lemma closed_is_instance (h ext : heap) (v : jsval) :
  closed_val (length h) v = true -> is_instance (h ++ ext) v = is_instance h v.
Proof.
  destruct v; trivial. intros H.
  unfold is_instance, instanceof_Control, instanceof_ControlGroup,
    instanceof_ControlArray.
  rewrite (closed_lookup_app _ _ _ H). reflexivity.
Qed.

(** ** Calls made after other allocations *)

(** On a closed node the dispatch of [_createControl] is decided by [h]
    alone: either the node is returned, or one and the same [Control]
    object is allocated, whatever was allocated after [h]. *)
Lemma _createControl_frame (c : jsval) (h : heap) :
  closed_heap h = true -> closed_val (length h) c = true ->
  (forall X, _createControl c (h ++ X) = Ok c (h ++ X)) \/
  (exists o, closed_obj (length h) o = true /\
     forall X, _createControl c (h ++ X)
                 = Ok (VRef (length (h ++ X))) ((h ++ X) ++ [o])).
Proof.
  intros Hh Hc. destruct (is_instance h c) eqn:Hinst.
  - left. intros X. apply _createControl_instance.
    rewrite closed_is_instance; assumption.
  - right. destruct (array_elems h c) as [elems|] eqn:Harr.
    + exists (OControl (nth 0 elems VUndefined)
                (default_param
                   (if (1 <? length elems)%nat
                    then nth 1 elems VUndefined else VNull) VNull)
                (default_param
                   (if (2 <? length elems)%nat
                    then nth 2 elems VUndefined else VNull) VNull)).
      split.
      * assert (forallb (closed_val (length h)) elems = true) as Hel.
        { unfold array_elems in Harr. destruct c as [| | | | | |l];
            try discriminate.
          destruct (h !! l) as [[]|] eqn:E; try discriminate.
          injection Harr as <-. exact (closed_heap_lookup _ _ _ Hh E). }
        simpl. rewrite !andb_true_iff. repeat split.
        -- apply closed_nth, Hel.
        -- apply closed_default_param.
           destruct (1 <? length elems)%nat; [apply closed_nth, Hel|trivial].
        -- apply closed_default_param.
           destruct (2 <? length elems)%nat; [apply closed_nth, Hel|trivial].
      * intros X. rewrite (_createControl_array c (h ++ X) elems).
        -- apply control_alloc.
        -- rewrite closed_array_elems; assumption.
    + exists (OControl c VNull VNull). split.
      * simpl. rewrite Hc. reflexivity.
      * intros X. rewrite _createControl_raw.
        -- apply control_alloc.
        -- rewrite closed_is_instance; assumption.
        -- unfold isArray. rewrite closed_array_elems, Harr; trivial.
Qed.

Section Frame.

Variables (h ext : heap).
Hypothesis h_closed : closed_heap h = true.

Let n := length h.
Let d := length ext.

Lemma shift_fresh_ref (A A' : heap) :
  length A = length A' ->
  shift_val n d (VRef (length (h ++ A)))
    = VRef (length ((h ++ ext) ++ A')).
Proof.
  intros HA. subst n d.
  rewrite shift_val_fresh by (rewrite length_app; lia).
  rewrite !length_app. f_equal. lia.
Qed.

Lemma mapM_frame (elems : list jsval) :
  forallb (closed_val n) elems = true ->
  forall A, exists rs new,
    mapM _createControl elems (h ++ A) = Ok rs ((h ++ A) ++ new) /\
    mapM _createControl elems ((h ++ ext) ++ A)
      = Ok (map (shift_val n d) rs) (((h ++ ext) ++ A) ++ new) /\
    forallb (closed_obj n) new = true.
Proof.
  induction elems as [|c elems IH]; intros Hel A.
  - exists [], []. rewrite !app_nil_r. repeat split.
  - simpl in Hel. apply andb_true_iff in Hel as [Hc Hel].
    destruct (_createControl_frame c h h_closed Hc)
      as [Hsame | (o & Ho & Hnew)].
    + destruct (IH Hel A) as (rs & new & HA & HB & Hcl).
      exists (c :: rs), new. simpl. unfold bind, ret.
      rewrite Hsame, HA. rewrite <- (app_assoc h ext A), Hsame.
      rewrite (app_assoc h ext A), HB.
      rewrite (shift_val_closed _ _ _ Hc). repeat split. exact Hcl.
    + destruct (IH Hel (A ++ [o])) as (rs & new & HA & HB & Hcl).
      exists (VRef (length (h ++ A)) :: rs), (o :: new).
      cbn [mapM map]. unfold bind, ret.
      rewrite Hnew. rewrite <- (app_assoc h A [o]), HA.
      rewrite <- (app_assoc h ext A), Hnew.
      rewrite (app_assoc h ext A).
      rewrite <- (app_assoc (h ++ ext) A [o]), HB.
      rewrite (shift_fresh_ref A A eq_refl).
      split; [|split]; [rewrite <- !app_assoc; reflexivity ..|].
      cbn [forallb]. fold n in Ho. rewrite Ho, Hcl. reflexivity.
Qed.

Lemma forEach_keys_frame (m : jsval) (ps : props) (ks : list string) :
  closed_val n m = true -> map_props h m = Some ps ->
  forall acc ctrls, exists acc' new,
    forEach_keys m ks (reduce_step (VRef (length h)))
      (h ++ OMap acc :: ctrls)
      = Ok tt (h ++ OMap acc' :: (ctrls ++ new)) /\
    forEach_keys m ks (reduce_step (VRef (length (h ++ ext))))
      ((h ++ ext) ++ OMap (shift_props n d acc) :: ctrls)
      = Ok tt ((h ++ ext) ++ OMap (shift_props n d acc') :: (ctrls ++ new)) /\
    forallb (closed_obj n) new = true.
Proof.
  intros Hm Hps.
  assert (forallb (fun p => closed_val n (snd p)) ps = true) as Hcl.
  { unfold map_props in Hps. destruct m as [| | | | | |l]; try discriminate.
    destruct (h !! l) as [[]|] eqn:E; try discriminate.
    injection Hps as <-. exact (closed_heap_lookup _ _ _ h_closed E). }
  induction ks as [|k ks IH]; intros acc ctrls.
  - exists acc, []. rewrite app_nil_r. repeat split.
  - cbn [forEach_keys].
    rewrite (closed_map_props h _ m Hm), Hps.
    rewrite <- (app_assoc h ext), (closed_map_props h _ m Hm), Hps.
    rewrite (app_assoc h ext).
    destruct (get_prop k ps) as [c|] eqn:Hk; [|apply IH].
    pose proof (closed_get_prop _ _ _ _ Hcl Hk) as Hc.
    destruct (_createControl_frame c h h_closed Hc)
      as [Hsame | (o & Ho & Hnew)].
    + destruct (IH (assign_prop k c acc) (ctrls ++ []))
        as (acc' & new & HA & HB & Hclosed).
      exists acc', new. unfold bind.
      rewrite (reduce_step_run h ctrls [] acc c c k)
        by (rewrite app_nil_r; apply Hsame).
      rewrite (reduce_step_run (h ++ ext) ctrls [] _ c c k)
        by (rewrite app_nil_r, <- (app_assoc h ext); apply Hsame).
      rewrite shift_props_assign_prop, (shift_val_closed _ _ _ Hc) in HB.
      rewrite HA, HB, !app_nil_r. repeat split. exact Hclosed.
    + destruct (IH (assign_prop k (VRef (length (h ++ OMap acc :: ctrls))) acc)
                  (ctrls ++ [o]))
        as (acc' & new & HA & HB & Hclosed).
      exists acc', (o :: new). unfold bind.
      rewrite (reduce_step_run h ctrls [o] acc c _ k (Hnew _)).
      rewrite (reduce_step_run (h ++ ext) ctrls [o] _ c
                 (VRef (length ((h ++ ext) ++ OMap (shift_props n d acc)
                                  :: ctrls))) k)
        by (rewrite <- (app_assoc h ext); apply Hnew).
      rewrite shift_props_assign_prop in HB.
      rewrite (shift_fresh_ref (OMap acc :: ctrls)
                 (OMap (shift_props n d acc) :: ctrls) eq_refl) in HB.
      rewrite HA, HB.
      split; [|split]; [rewrite <- !(app_assoc ctrls); reflexivity ..|].
      cbn [forallb]. fold n in Ho. rewrite Ho, Hclosed. reflexivity.
Qed.

End Frame.

Lemma relocate_Ok (h ext new : heap) (v : jsval) :
  relocate (length h) ext (Ok v (h ++ new))
    = Ok (shift_val (length h) (length ext) v)
         ((h ++ ext) ++ map (shift_obj (length h) (length ext)) new).
Proof.
  unfold relocate. rewrite take_app_length, drop_app_length, app_assoc.
  reflexivity.
Qed.

Lemma relocate_Throw (h ext : heap) (e : error) :
  relocate (length h) ext (Throw e h) = Throw e (h ++ ext).
Proof.
  unfold relocate. rewrite take_ge, drop_all by lia. simpl.
  rewrite app_nil_r. reflexivity.
Qed.

Lemma control_frame (v validator asyncValidator : jsval) (h ext : heap) :
  closed_val (length h) v = true ->
  closed_val (length h) validator = true ->
  closed_val (length h) asyncValidator = true ->
  control v validator asyncValidator (h ++ ext)
    = relocate (length h) ext (control v validator asyncValidator h).
Proof.
  intros Hv Ha Hb. rewrite !control_alloc, relocate_Ok.
  rewrite shift_val_fresh by lia. rewrite length_app. simpl.
  rewrite !shift_val_closed; auto using closed_default_param.
Qed.

Lemma array_frame (a validator asyncValidator : jsval) (h ext : heap) :
  closed_heap h = true ->
  closed_val (length h) a = true ->
  closed_val (length h) validator = true ->
  closed_val (length h) asyncValidator = true ->
  array a validator asyncValidator (h ++ ext)
    = relocate (length h) ext (array a validator asyncValidator h).
Proof.
  intros Hh Ha Hv Hav. destruct (array_elems h a) as [elems|] eqn:Harr.
  - assert (forallb (closed_val (length h)) elems = true) as Hel.
    { unfold array_elems in Harr. destruct a as [| | | | | |l];
        try discriminate.
      destruct (h !! l) as [[]|] eqn:E; try discriminate.
      injection Harr as <-. exact (closed_heap_lookup _ _ _ Hh E). }
    destruct (mapM_frame h ext Hh elems Hel []) as (rs & new & HA & HB & Hcl).
    rewrite !app_nil_r in HA, HB.
    rewrite (array_run _ _ _ _ _ _ _ Harr HA).
    rewrite (array_run a validator asyncValidator elems _ (h ++ ext) _
               (eq_trans (closed_array_elems _ _ _ Ha) Harr) HB).
    rewrite <- (app_assoc h new), relocate_Ok.
    rewrite map_app, (shift_objs_closed _ _ _ Hcl). simpl map.
    rewrite !(shift_val_fresh (length h)) by (rewrite length_app; lia).
    rewrite !shift_val_closed by auto using closed_default_param.
    rewrite !length_app, <- !app_assoc.
    destruct (Nat.ltb_spec (length h + length new) (length h)) as [?|_];
      [lia|].
    replace (S (length h + length new) + length ext)
      with (S (length h + length ext + length new)) by lia.
    replace (length h + length new + length ext)
      with (length h + length ext + length new) by lia.
    reflexivity.
  - unfold array, bind, Array_map, throw.
    rewrite (closed_array_elems _ _ _ Ha), Harr. symmetry.
    apply relocate_Throw.
Qed.

Lemma _reduceControls_frame (m : jsval) (h ext : heap) :
  closed_heap h = true -> closed_val (length h) m = true ->
  exists rs new,
    _reduceControls m h = Ok (VRef (length h)) (h ++ OMap rs :: new) /\
    _reduceControls m (h ++ ext)
      = Ok (VRef (length (h ++ ext)))
           ((h ++ ext)
              ++ OMap (shift_props (length h) (length ext) rs) :: new) /\
    forallb (closed_obj (length h)) new = true.
Proof.
  intros Hh Hm.
  assert (forall g : heap,
            _reduceControls m g =
              match StringMapWrapper_forEach m (reduce_step (VRef (length g)))
                      (g ++ [OMap []]) with
              | Ok _ g' => Ok (VRef (length g)) g'
              | Throw e g' => Throw e g'
              end) as Hunfold by reflexivity.
  rewrite !Hunfold. unfold StringMapWrapper_forEach.
  rewrite (closed_map_props h _ m Hm).
  rewrite <- (app_assoc h ext), (closed_map_props h _ m Hm).
  rewrite (app_assoc h ext).
  destruct (map_props h m) as [ps|] eqn:Hps.
  - destruct (forEach_keys_frame h ext Hh m ps (keys ps) Hm Hps [] [])
      as (rs & new & HA & HB & Hcl).
    exists rs, new. simpl in HB. rewrite HA, HB. repeat split. exact Hcl.
  - exists [], []. repeat split.
Qed.

(** The value [group] reads from a closed [extra] is decided by [h]. *)
Lemma extra_option_frame (extra : jsval) (key : string) (h : heap) :
  closed_heap h = true -> closed_val (length h) extra = true ->
  exists o, closed_val (length h) o = true /\
    forall X,
      (if isPresent (default_param extra VNull)
       then StringMapWrapper_get (default_param extra VNull) key
       else ret VNull) (h ++ X) = Ok o (h ++ X).
Proof.
  intros Hh He. destruct extra as [| | | | | |l];
    try (exists VNull; split; [reflexivity | intros X; reflexivity]);
    try (exists VUndefined; split; [reflexivity | intros X; reflexivity]).
  simpl. unfold StringMapWrapper_get.
  destruct (map_props h (VRef l)) as [eps|] eqn:Heps.
  - destruct (get_prop key eps) as [v|] eqn:Hk.
    + exists v. split.
      * unfold map_props in Heps. destruct (h !! l) as [[]|] eqn:E;
          try discriminate.
        injection Heps as <-.
        exact (closed_get_prop _ _ _ _ (closed_heap_lookup _ _ _ Hh E) Hk).
      * intros X. rewrite (closed_map_props h X _ He), Heps, Hk. reflexivity.
    + exists VUndefined. split; [reflexivity|].
      intros X. rewrite (closed_map_props h X _ He), Heps, Hk. reflexivity.
  - exists VUndefined. split; [reflexivity|].
    intros X. rewrite (closed_map_props h X _ He), Heps. reflexivity.
Qed.

Lemma group_frame (m extra : jsval) (h ext : heap) :
  closed_heap h = true ->
  closed_val (length h) m = true ->
  closed_val (length h) extra = true ->
  group m extra (h ++ ext) = relocate (length h) ext (group m extra h).
Proof.
  intros Hh Hm He.
  destruct (_reduceControls_frame m h ext Hh Hm) as (rs & new & HA & HB & Hcl).
  destruct (extra_option_frame extra "optionals" h Hh He) as (o & Ho & Hopt).
  destruct (extra_option_frame extra "validator" h Hh He) as (v & Hv & Hval).
  destruct (extra_option_frame extra "asyncValidator" h Hh He)
    as (av & Hav & Hasync).
  unfold group, bind. rewrite HA, HB.
  rewrite !Hopt, !Hval, !Hasync.
  rewrite <- (app_assoc h ext), !Hopt, !Hval, !Hasync.
  unfold new_ControlGroup, alloc.
  rewrite <- (app_assoc h (OMap rs :: new)), relocate_Ok.
  rewrite map_app. cbn [map]. rewrite (shift_objs_closed _ _ _ Hcl).
  simpl.
  rewrite !(shift_val_closed _ _ _ Ho), !(shift_val_closed _ _ _ Hv),
    !(shift_val_closed _ _ _ Hav).
  destruct (Nat.ltb_spec (length h) (length h)) as [?|_]; [lia|].
  destruct (Nat.ltb_spec (length (h ++ OMap rs :: new)) (length h)) as [Hlt|_].
  { rewrite length_app in Hlt. lia. }
  rewrite !length_app, <- !app_assoc. simpl.
  replace (length h + S (length new) + length ext)
    with (length h + (length ext + S (length new))) by lia.
  reflexivity.
Qed.

(** ** The heap only grows *)

Lemma control_grows (v validator asyncValidator : jsval) (h : heap) :
  h `prefix_of` heap_of (control v validator asyncValidator h).
Proof. rewrite control_alloc. simpl. apply prefix_app_r. reflexivity. Qed.

Lemma group_grows (m extra : jsval) (h : heap) :
  h `prefix_of` heap_of (group m extra h).
Proof.
  destruct (_reduceControls_shape m h) as (rs & new & Hred).
  destruct (group_run m extra h _ _ Hred) as (o & v & av & Hrun & _).
  { intros eps. apply map_props_app. }
  rewrite Hrun. simpl. do 2 apply prefix_app_r. reflexivity.
Qed.

Lemma array_grows (a validator asyncValidator : jsval) (h : heap) :
  h `prefix_of` heap_of (array a validator asyncValidator h).
Proof.
  destruct (array_elems h a) as [elems|] eqn:Harr.
  - destruct (mapM_allocates _ _createControl_allocates elems h)
      as (rs & new & Hm & _).
    rewrite (array_run _ _ _ _ _ _ _ Harr Hm). simpl.
    do 2 apply prefix_app_r. reflexivity.
  - unfold array, bind, Array_map. rewrite Harr. reflexivity.
Qed.

(** ** Claim about purity *)

(** C9: [group], [control] and [array] are pure and deterministic.  The
    builder has no fields, so an outcome is a function of the arguments and
    the heap alone: equal inputs give equal outcomes.  No object that
    existed before a call is changed by it, whether the call returns or
    throws: the heap it leaves is the heap it found followed by the objects
    it allocated.  And an outcome does not depend on calls made before: on
    a heap where other objects were allocated in between, the call does the
    same, its own objects being placed after those. *)
Theorem builder_is_pure :
  (forall v v' a a' b b' h h', v = v' -> a = a' -> b = b' -> h = h' ->
     control v a b h = control v' a' b' h') /\
  (forall m m' e e' h h', m = m' -> e = e' -> h = h' ->
     group m e h = group m' e' h') /\
  (forall c c' a a' b b' h h', c = c' -> a = a' -> b = b' -> h = h' ->
     array c a b h = array c' a' b' h') /\
  (forall v a b h, h `prefix_of` heap_of (control v a b h)) /\
  (forall m e h, h `prefix_of` heap_of (group m e h)) /\
  (forall c a b h, h `prefix_of` heap_of (array c a b h)) /\
  (forall h ext, closed_heap h = true ->
     (forall v a b,
        closed_val (length h) v = true -> closed_val (length h) a = true ->
        closed_val (length h) b = true ->
        control v a b (h ++ ext) = relocate (length h) ext (control v a b h)) /\
     (forall m e,
        closed_val (length h) m = true -> closed_val (length h) e = true ->
        group m e (h ++ ext) = relocate (length h) ext (group m e h)) /\
     (forall c a b,
        closed_val (length h) c = true -> closed_val (length h) a = true ->
        closed_val (length h) b = true ->
        array c a b (h ++ ext) = relocate (length h) ext (array c a b h))).
Proof.
  split; [intros; subst; reflexivity|].
  split; [intros; subst; reflexivity|].
  split; [intros; subst; reflexivity|].
  split; [exact control_grows|].
  split; [exact group_grows|].
  split; [exact array_grows|].
  intros h ext Hh. split; [|split].
  - intros v a b. apply control_frame.
  - intros m e. apply group_frame, Hh.
  - intros c a b. apply array_frame, Hh.
Qed.

(** ** The claims on the sample heap *)

Import Samples.

Lemma control_wraps_arguments_witness :
  exists l hf,
    control (VStr "a") VUndefined asyncCheck login_heap = Ok (VRef l) hf /\
    hf !! l = Some (OControl (VStr "a") VNull asyncCheck).
Proof.
  destruct (control_wraps_arguments (VStr "a") VUndefined asyncCheck login_heap)
    as (l & hf & sv & sa & Hrun & _ & Hl & Hv & _ & _ & Ha).
  exists l, hf. split; [exact Hrun|].
  rewrite Hl, (Hv eq_refl), (Ha ltac:(discriminate)). reflexivity.
Defined.

Lemma createControl_array_positional_witness :
  array_elems login_heap (VRef 0) = Some [VStr "secret"; required] /\
  _createControl (VRef 0) login_heap
    = control (VStr "secret") required VNull login_heap.
Proof.
  split; [reflexivity|].
  exact (proj1 (createControl_array_positional (VRef 0)
                  [VStr "secret"; required] login_heap eq_refl)).
Defined.

Lemma createControl_passthrough_witness :
  instanceof_Control login_heap (VRef 2) = true /\
  _createControl (VRef 2) login_heap = Ok (VRef 2) login_heap.
Proof.
  split; [reflexivity|].
  apply (createControl_passthrough (VRef 2) login_heap). left. reflexivity.
Defined.

Lemma createControl_raw_value_witness :
  is_instance login_heap (VStr "x") = false /\
  isArray login_heap (VStr "x") = false /\
  _createControl (VStr "x") login_heap
    = Ok (VRef 10) (login_heap ++ [OControl (VStr "x") VNull VNull]).
Proof.
  split; [reflexivity|]. split; [reflexivity|].
  exact (proj2 (createControl_raw_value (VStr "x") login_heap
                  eq_refl eq_refl eq_refl eq_refl)).
Defined.


Lemma array_resolves_in_order_witness :
  array_elems login_heap (VRef 5) = Some [VRef 0; VRef 2; VNum 5] /\
  exists rs h1,
    array (VRef 5) VUndefined asyncCheck login_heap
      = Ok (VRef (S (length h1)))
           (h1 ++ [OArray rs;
                   OControlArray (VRef (length h1)) VNull asyncCheck])
    /\ length rs = 3.
Proof.
  split; [reflexivity|].
  destruct (array_resolves_in_order (VRef 5) VUndefined asyncCheck
              [VRef 0; VRef 2; VNum 5] login_heap eq_refl)
    as (rs & h1 & _ & Hrun & Hlen & _).
  exists rs, h1. split; [exact Hrun | exact Hlen].
Defined.

Lemma group_extra_options_witness :
  exists lg hf controls validator asyncValidator,
    group (VRef 3) (VRef 4) login_heap = Ok (VRef lg) hf /\
    hf !! lg
      = Some (OControlGroup controls (VRef 9) validator asyncValidator) /\
    isPresent validator = false /\ isPresent asyncValidator = false.
Proof.
  destruct (group_extra_options (VRef 3) (VRef 4) login_heap)
    as (lg & hf & c & o & v & av & Hrun & Hlg & _ & Hmap).
  destruct (Hmap [("optionals", VRef 9)] eq_refl)
    as (Ho & _ & _ & _ & Hv & Hav).
  exists lg, hf, c, v, av. split; [exact Hrun|].
  rewrite Hlg, (Ho _ eq_refl). split; [reflexivity|].
  split; [exact (Hv eq_refl) | exact (Hav eq_refl)].
Defined.



Lemma builder_is_pure_witness :
  closed_heap login_heap = true /\
  login_heap `prefix_of` heap_of (group (VRef 3) (VRef 4) login_heap) /\
  group (VRef 3) (VRef 4) (login_heap ++ [OArray []])
    = relocate (length login_heap) [OArray []]
        (group (VRef 3) (VRef 4) login_heap).
Proof.
  destruct builder_is_pure as (_ & _ & _ & _ & Hgrows & _ & Hframe).
  split; [reflexivity|]. split; [apply Hgrows|].
  destruct (Hframe login_heap [OArray []] eq_refl) as (_ & Hgroup & _).
  apply Hgroup; reflexivity.
Defined.

(** A nested configuration, [group({x: ["a"], y: group({z: ["b"]})})]:
    the inner group is built first, the outer configuration then holds it
    under [y], and the outer group keeps that very object. *)
Example nesting_two_levels :
  exists inner h1,
    group (VRef 2) VUndefined nesting_heap = Ok inner h1 /\
    group (VRef (length h1)) VUndefined
      (h1 ++ [OMap [("x", VRef 0); ("y", inner)]])
    = Ok (VRef 9)
        [ OArray [VStr "a"]; OArray [VStr "b"]; OMap [("z", VRef 1)];
          OMap [("z", VRef 4)]; OControl (VStr "b") VNull VNull;
          OControlGroup (VRef 3) VNull VNull VNull;
          OMap [("x", VRef 0); ("y", VRef 5)];
          OMap [("x", VRef 8); ("y", VRef 5)];
          OControl (VStr "a") VNull VNull;
          OControlGroup (VRef 7) VNull VNull VNull ].
Proof. eexists _, _. split; reflexivity. Qed.

(** * Further properties of the builder *)

(** ** Results are accepted as pre-built nodes *)

(** X1: resolving is idempotent: whatever [_createControl] returns for a
    node, it returns unchanged, allocating nothing, when given it again. *)
Theorem createControl_idempotent (c : jsval) (h : heap) :
  exists r h',
    _createControl c h = Ok r h' /\ _createControl r h' = Ok r h'.
Proof.
  destruct (_createControl_allocates c h) as (r & new & Hc).
  exists r, (h ++ new). split; [exact Hc|].
  apply _createControl_instance.
  exact (_createControl_returns_instance _ _ _ _ Hc).
Qed.

(** X2: what [control], [group] and [array] return is a pre-built node for
    [_createControl]: in the heap the call leaves, the result is passed
    through as it is.  This is what lets a [group] or [array] call stand
    inside a configuration. *)
Theorem results_pass_through :
  (forall v validator asyncValidator h,
     exists r hf,
       control v validator asyncValidator h = Ok r hf /\
       _createControl r hf = Ok r hf) /\
  (forall m extra h,
     exists r hf,
       group m extra h = Ok r hf /\ _createControl r hf = Ok r hf) /\
  (forall a validator asyncValidator h r hf,
     array a validator asyncValidator h = Ok r hf ->
     _createControl r hf = Ok r hf).
Proof.
  split; [|split].
  - intros v validator asyncValidator h. eexists _, _.
    split; [apply control_alloc|].
    apply _createControl_instance. unfold is_instance, instanceof_Control.
    rewrite list_lookup_middle by reflexivity. reflexivity.
  - intros m extra h.
    destruct (_reduceControls_shape m h) as (rs & new & Hred).
    destruct (group_run m extra h _ _ Hred) as (o & v & av & Hrun & _).
    { intros eps. apply map_props_app. }
    eexists _, _. split; [exact Hrun|].
    apply _createControl_instance.
    unfold is_instance, instanceof_Control, instanceof_ControlGroup.
    rewrite list_lookup_middle by reflexivity. reflexivity.
  - intros a validator asyncValidator h r hf Hrun.
    destruct (array_elems h a) as [elems|] eqn:Harr.
    + destruct (mapM_allocates _ _createControl_allocates elems h)
        as (rs & new & Hm & _).
      rewrite (array_run _ _ _ _ _ _ _ Harr Hm) in Hrun.
      injection Hrun as <- <-.
      apply _createControl_instance.
      unfold is_instance, instanceof_Control, instanceof_ControlGroup,
        instanceof_ControlArray.
      replace (S (length (h ++ new)))
        with (length ((h ++ new) ++ [OArray rs]))
        by (rewrite (length_app _ [OArray rs]); simpl; lia).
      rewrite (app_assoc _ [OArray rs] [_] : _ ++ [_; _] = _).
      rewrite list_lookup_middle by reflexivity. reflexivity.
    + unfold array, bind, Array_map, throw in Hrun. rewrite Harr in Hrun.
      discriminate.
Qed.

(** ** Faults of [array] *)

(** X3: [array] given anything that is not an object (a boolean, a
    number, a string, a function, [null], [undefined]) throws a
    [TypeError] before it allocates anything: the heap is as the call
    found it. *)
Theorem array_fault_leaves_heap (a validator asyncValidator : jsval)
    (h : heap) :
  (forall l, a <> VRef l) ->
  array a validator asyncValidator h = Throw TypeError h.
Proof.
  intros Hprim. unfold array, bind, Array_map, throw.
  destruct a; try reflexivity. destruct (Hprim l eq_refl).
Qed.

(** ** Empty configurations *)

(** X4: [array] over an empty sequence allocates just a new empty array
    and the [ControlArray] over it. *)
Theorem array_of_empty (a validator asyncValidator : jsval) (h : heap) :
  array_elems h a = Some [] ->
  array a validator asyncValidator h =
    Ok (VRef (S (length h)))
       (h ++ [OArray [];
              OControlArray (VRef (length h))
                (default_param validator VNull)
                (default_param asyncValidator VNull)]).
Proof.
  intros Harr.
  exact (array_run a validator asyncValidator [] [] h h Harr eq_refl).
Qed.

(** X5: [group] over a mapping without keys allocates just a new empty map
    and the [ControlGroup] over it. *)
Theorem group_of_empty (m extra : jsval) (h : heap) :
  map_props h m = Some [] ->
  exists optionals validator asyncValidator,
    group m extra h =
      Ok (VRef (S (length h)))
         (h ++ [OMap [];
                OControlGroup (VRef (length h))
                  optionals validator asyncValidator]).
Proof.
  intros Hm.
  assert (_reduceControls m h = Ok (VRef (length h)) (h ++ [OMap []])) as Hred.
  { unfold _reduceControls, bind, alloc, StringMapWrapper_forEach.
    rewrite (map_props_app _ [OMap []] _ _ Hm). reflexivity. }
  destruct (group_run m extra h _ _ Hred) as (o & v & av & Hrun & _).
  { intros eps. apply map_props_app. }
  exists o, v, av. rewrite Hrun, length_app, <- app_assoc. simpl.
  rewrite Nat.add_1_r. reflexivity.
Qed.

(** ** Fields of a built form *)

Lemma is_instance_closed (h : heap) (c : jsval) :
  is_instance h c = true -> closed_val (length h) c = true.
Proof.
  intros H. destruct (is_instance_lookup _ _ H) as (l & o & -> & Hl & _).
  simpl. apply Nat.ltb_lt. exact (lookup_lt_Some _ _ _ Hl).
Qed.

(** A pre-built node stays one, and is passed through, whatever is
    allocated after [h]. *)
Lemma _createControl_stable_instance (c : jsval) (h X : heap) :
  is_instance h c = true -> _createControl c (h ++ X) = Ok c (h ++ X).
Proof.
  intros H. apply _createControl_instance.
  rewrite closed_is_instance; [exact H | apply is_instance_closed, H].
Qed.

(** A node of [h] that is not pre-built gets a new [Control], the same
    object whatever is allocated after [h]. *)
Lemma _createControl_stable_created (c : jsval) (h : heap) :
  is_instance h c = false -> closed_val (length h) c = true ->
  exists o, forall X,
    _createControl c (h ++ X)
      = Ok (VRef (length (h ++ X))) ((h ++ X) ++ [o]).
Proof.
  intros Hinst Hc. destruct (array_elems h c) as [elems|] eqn:Harr.
  - eexists. intros X. rewrite (_createControl_array c (h ++ X) elems).
    + apply control_alloc.
    + rewrite closed_array_elems; assumption.
  - eexists. intros X. rewrite _createControl_raw.
    + apply control_alloc.
    + rewrite closed_is_instance; assumption.
    + unfold isArray. rewrite closed_array_elems, Harr; trivial.
Qed.

(** [group], once [_reduceControls] has filled the map [rs]: the fields of
    the group are the entries of [rs]. *)
Lemma group_field_run (m extra : jsval) (h new : heap) (rs : props) :
  _reduceControls m h = Ok (VRef (length h)) (h ++ OMap rs :: new) ->
  exists g o v av,
    group m extra h
      = Ok g ((h ++ OMap rs :: new)
                ++ [OControlGroup (VRef (length h)) o v av]) /\
    forall k,
      group_field ((h ++ OMap rs :: new)
                     ++ [OControlGroup (VRef (length h)) o v av]) g k
        = get_prop k rs.
Proof.
  intros Hred.
  destruct (group_run m extra h _ _ Hred) as (o & v & av & Hrun & _).
  { intros eps. apply map_props_app. }
  exists (VRef (length (h ++ OMap rs :: new))), o, v, av.
  split; [exact Hrun|]. intros k.
  unfold group_field. cbv beta iota.
  rewrite list_lookup_middle by reflexivity.
  unfold map_props. rewrite <- app_assoc, <- app_comm_cons.
  rewrite list_lookup_middle by reflexivity. reflexivity.
Qed.

(** [array], once the elements have been resolved to [rs]: the items of
    the array of controls are the elements of [rs]. *)
Lemma array_item_run (a validator asyncValidator : jsval)
    (elems rs : list jsval) (h h1 : heap) :
  array_elems h a = Some elems ->
  mapM _createControl elems h = Ok rs h1 ->
  exists r hf,
    array a validator asyncValidator h = Ok r hf /\
    h1 `prefix_of` hf /\
    forall i, array_item hf r i = rs !! i.
Proof.
  intros Harr Hm. eexists _, _.
  split; [exact (array_run _ _ _ _ _ _ _ Harr Hm)|].
  split; [apply prefix_app_r; reflexivity|]. intros i.
  unfold array_item, array_elems. cbv beta iota.
  replace (S (length h1)) with (length (h1 ++ [OArray rs]))
    by (rewrite length_app; simpl; lia).
  rewrite (app_assoc _ [OArray rs] [_] : _ ++ [_; _] = _).
  rewrite list_lookup_middle by reflexivity.
  rewrite <- app_assoc. cbn [app].
  rewrite list_lookup_middle by reflexivity.
  reflexivity.
Qed.

(** X6: a pre-built control placed in the configuration of [group] under
    a name other than [__proto__] is the field of the group under that
    name: the same object, not a copy. *)
Theorem group_keeps_prebuilt (m extra c : jsval) (k : string) (ps : props)
    (h : heap) :
  map_props h m = Some ps ->
  k <> "__proto__" ->
  get_prop k ps = Some c ->
  is_instance h c = true ->
  exists g hf, group m extra h = Ok g hf /\ group_field hf g k = Some c.
Proof.
  intros Hm Hproto Hk Hinst.
  destruct (_reduceControls_fills m h ps Hm) as (rs & new & Hred & _ & _ & Hin).
  destruct (group_field_run m extra h new rs Hred)
    as (g & o & v & av & Hrun & Hfield).
  eexists _, _. split; [exact Hrun|]. rewrite Hfield.
  destruct (Hin k c Hproto Hk) as (r & ha & hb & Hr & Hc & [X ->] & _).
  rewrite (_createControl_stable_instance c h X Hinst) in Hc.
  injection Hc as <- _. exact Hr.
Qed.

(** X7: for a node of the configuration of [group] that is not pre-built
    and stands under a name other than [__proto__], the field of the group
    is a [Control] that did not exist before the call, and it is the
    [Control] that [_createControl] makes of the node when called on it
    directly. *)
Theorem group_creates_field (m extra c : jsval) (k : string) (ps : props)
    (h : heap) :
  map_props h m = Some ps ->
  k <> "__proto__" ->
  get_prop k ps = Some c ->
  is_instance h c = false ->
  closed_val (length h) c = true ->
  exists g hf l o,
    group m extra h = Ok g hf /\
    group_field hf g k = Some (VRef l) /\
    h !! l = None /\ hf !! l = Some o /\
    _createControl c h = Ok (VRef (length h)) (h ++ [o]).
Proof.
  intros Hm Hproto Hk Hinst Hclosed.
  destruct (_reduceControls_fills m h ps Hm) as (rs & new & Hred & _ & _ & Hin).
  destruct (group_field_run m extra h new rs Hred)
    as (g & o' & v & av & Hrun & Hfield).
  destruct (Hin k c Hproto Hk) as (r & ha & hb & Hr & Hc & [X ->] & Hsame).
  destruct (_createControl_stable_created c h Hinst Hclosed) as (o & Ho).
  rewrite Ho in Hc. injection Hc as <- <-.
  exists g, ((h ++ OMap rs :: new)
               ++ [OControlGroup (VRef (length h)) o' v av]),
    (length (h ++ X)), o.
  split; [exact Hrun|]. split; [rewrite Hfield; exact Hr|].
  split; [apply lookup_ge_None_2; rewrite length_app; lia|].
  split.
  - apply lookup_app_l_Some.
    etrans; [exact (Hsame _ eq_refl)|].
    apply list_lookup_middle. reflexivity.
  - specialize (Ho []). rewrite !app_nil_r in Ho. exact Ho.
Qed.

(** X8: a pre-built control among the elements given to [array] is the
    item of the [ControlArray] at the same position: the same object. *)
Theorem array_keeps_prebuilt (a validator asyncValidator c : jsval)
    (elems : list jsval) (i : nat) (h : heap) :
  array_elems h a = Some elems ->
  elems !! i = Some c ->
  is_instance h c = true ->
  exists r hf,
    array a validator asyncValidator h = Ok r hf /\
    array_item hf r i = Some c.
Proof.
  intros Harr Hi Hinst.
  destruct (mapM_allocates _ _createControl_allocates elems h)
    as (rs & new & Hm & _ & Hel).
  destruct (array_item_run a validator asyncValidator _ _ _ _ Harr Hm)
    as (r & hf & Hrun & _ & Hitem).
  exists r, hf. split; [exact Hrun|]. rewrite Hitem.
  destruct (Hel i c Hi) as (r' & ha & hb & Hr & Hc & [X ->] & _).
  rewrite (_createControl_stable_instance c h X Hinst) in Hc.
  injection Hc as <- _. exact Hr.
Qed.

(** X9: for an element given to [array] that is not pre-built, the item at
    the same position is a [Control] that did not exist before the call,
    the one [_createControl] makes of the element when called on it
    directly. *)
Theorem array_creates_item (a validator asyncValidator c : jsval)
    (elems : list jsval) (i : nat) (h : heap) :
  array_elems h a = Some elems ->
  elems !! i = Some c ->
  is_instance h c = false ->
  closed_val (length h) c = true ->
  exists r hf l o,
    array a validator asyncValidator h = Ok r hf /\
    array_item hf r i = Some (VRef l) /\
    h !! l = None /\ hf !! l = Some o /\
    _createControl c h = Ok (VRef (length h)) (h ++ [o]).
Proof.
  intros Harr Hi Hinst Hclosed.
  destruct (mapM_allocates _ _createControl_allocates elems h)
    as (rs & new & Hm & _ & Hel).
  destruct (array_item_run a validator asyncValidator _ _ _ _ Harr Hm)
    as (r & hf & Hrun & [Y ->] & Hitem).
  destruct (Hel i c Hi) as (r' & ha & hb & Hr & Hc & [X ->] & [Z Hz]).
  destruct (_createControl_stable_created c h Hinst Hclosed) as (o & Ho).
  rewrite Ho in Hc. injection Hc as <- <-.
  exists r, ((h ++ new) ++ Y), (length (h ++ X)), o.
  split; [exact Hrun|]. split; [rewrite Hitem; exact Hr|].
  split; [apply lookup_ge_None_2; rewrite length_app; lia|].
  split.
  - rewrite Hz, <- !app_assoc. rewrite (app_assoc h X).
    apply list_lookup_middle. reflexivity.
  - specialize (Ho []). rewrite !app_nil_r in Ho. exact Ho.
Qed.

(** ** Order of the fields *)

Lemma keys_set_prop_new (k : string) (v : jsval) (ps : props) :
  k ∉ keys ps -> keys (set_prop k v ps) = keys ps ++ [k].
Proof.
  induction ps as [|[k' v'] ps IH]; simpl; intros Hk; [reflexivity|].
  apply not_elem_of_cons in Hk as [Hne Hk].
  apply String.eqb_neq in Hne. rewrite Hne. simpl. f_equal. apply IH, Hk.
Qed.

Lemma keys_assign_prop_new (k : string) (v : jsval) (ps : props) :
  k ∉ keys ps ->
  keys (assign_prop k v ps)
    = keys ps ++ filter (fun k' => k' <> "__proto__") [k].
Proof.
  intros Hk. unfold assign_prop.
  destruct (String.eqb k "__proto__") eqn:E.
  - apply String.eqb_eq in E.
    rewrite filter_cons_False by (intros H; exact (H E)).
    rewrite filter_nil, app_nil_r. reflexivity.
  - apply String.eqb_neq in E. rewrite filter_cons_True by exact E.
    rewrite filter_nil. apply keys_set_prop_new, Hk.
Qed.

(** Over distinct keys of the configuration, none of them yet in the map
    being filled, the loop adds the keys other than [__proto__] at the
    end, in the order it visits them. *)
Lemma forEach_keys_order (m : jsval) (h : heap) (ps : props)
    (ks : list string) :
  map_props h m = Some ps ->
  NoDup ks ->
  (forall k, k ∈ ks -> k ∈ keys ps) ->
  forall (acc : props) (ctrls : heap),
  (forall k, k ∈ ks -> k ∉ keys acc) ->
  exists acc' new,
    forEach_keys m ks (reduce_step (VRef (length h))) (h ++ OMap acc :: ctrls)
      = Ok tt (h ++ OMap acc' :: (ctrls ++ new)) /\
    keys acc' = keys acc ++ filter (fun k => k <> "__proto__") ks.
Proof.
  intros Hm. induction ks as [|k ks IH]; intros Hnd Hsub acc ctrls Hfresh.
  - exists acc, []. rewrite filter_nil, !app_nil_r. split; reflexivity.
  - apply NoDup_cons in Hnd as [Hk Hnd].
    cbn [forEach_keys].
    rewrite (map_props_app _ (OMap acc :: ctrls) _ _ Hm).
    destruct (proj2 (get_prop_is_Some k ps)) as [c Hc];
      [apply Hsub; left|].
    rewrite Hc.
    destruct (_createControl_allocates c (h ++ OMap acc :: ctrls))
      as (r & n1 & Hrun).
    destruct (IH Hnd (fun k' H => Hsub k' (list_elem_of_further _ _ _ H))
                (assign_prop k r acc) (ctrls ++ n1))
      as (acc' & n2 & Hrest & Hkeys).
    { intros k' Hk'. rewrite keys_assign_prop. intros [[-> _]|Hin].
      - contradiction.
      - apply (Hfresh k'); [right; exact Hk' | exact Hin]. }
    exists acc', (n1 ++ n2). unfold bind at 1.
    rewrite (reduce_step_run _ _ _ _ _ _ _ Hrun), Hrest, app_assoc.
    split; [reflexivity|].
    rewrite Hkeys, keys_assign_prop_new by (apply Hfresh; left).
    rewrite <- app_assoc, <- filter_app. reflexivity.
Qed.

(** X10: the fields of the group come in the order of the keys of the
    configuration: the map handed to the [ControlGroup] enumerates the
    keys of the configuration other than [__proto__], in the same
    order. *)
Theorem group_preserves_key_order (m extra : jsval) (ps : props) (h : heap) :
  map_props h m = Some ps ->
  NoDup (keys ps) ->
  exists lg hf controls optionals validator asyncValidator rs,
    group m extra h = Ok (VRef lg) hf /\
    hf !! lg
      = Some (OControlGroup controls optionals validator asyncValidator) /\
    map_props hf controls = Some rs /\
    keys rs = filter (fun k => k <> "__proto__") (keys ps).
Proof.
  intros Hm Hnd.
  destruct (forEach_keys_order m h ps (keys ps) Hm Hnd (fun _ H => H) [] [])
    as (rs & new & Hloop & Hkeys).
  { intros k _ H. inversion H. }
  assert (_reduceControls m h = Ok (VRef (length h)) (h ++ OMap rs :: new))
    as Hred.
  { unfold _reduceControls. unfold bind at 1. unfold alloc.
    change (fun controlConfig controlName =>
              bind (_createControl controlConfig)
                (fun c => set_property (VRef (length h)) controlName c))
      with (reduce_step (VRef (length h))).
    unfold bind, StringMapWrapper_forEach.
    rewrite (map_props_app _ [OMap []] _ _ Hm), Hloop. reflexivity. }
  destruct (group_run m extra h _ _ Hred) as (o & v & av & Hrun & _).
  { intros eps. apply map_props_app. }
  exists (length (h ++ OMap rs :: new)),
    ((h ++ OMap rs :: new) ++ [OControlGroup (VRef (length h)) o v av]),
    (VRef (length h)), o, v, av, rs.
  split; [exact Hrun|].
  split; [apply list_lookup_middle; reflexivity|].
  split; [|exact Hkeys].
  unfold map_props. rewrite <- app_assoc, <- app_comm_cons.
  rewrite list_lookup_middle by reflexivity. reflexivity.
Qed.

(** ** Well-formed heaps stay well-formed *)

Lemma closed_val_mono (n n' : nat) (v : jsval) :
  (n <= n')%nat -> closed_val n v = true -> closed_val n' v = true.
Proof.
  destruct v; trivial. simpl. rewrite !Nat.ltb_lt. lia.
Qed.

Lemma closed_vals_mono (n n' : nat) (vs : list jsval) :
  (n <= n')%nat ->
  forallb (closed_val n) vs = true -> forallb (closed_val n') vs = true.
Proof.
  intros Hle. rewrite !forallb_forall. intros H v Hv.
  exact (closed_val_mono _ _ _ Hle (H v Hv)).
Qed.

Lemma closed_props_mono (n n' : nat) (ps : props) :
  (n <= n')%nat ->
  forallb (fun p => closed_val n (snd p)) ps = true ->
  forallb (fun p => closed_val n' (snd p)) ps = true.
Proof.
  intros Hle. rewrite !forallb_forall. intros H p Hp.
  exact (closed_val_mono _ _ _ Hle (H p Hp)).
Qed.

Lemma closed_obj_mono (n n' : nat) (o : obj) :
  (n <= n')%nat -> closed_obj n o = true -> closed_obj n' o = true.
Proof.
  intros Hle. destruct o; simpl; rewrite ?andb_true_iff;
    intuition eauto using closed_val_mono, closed_vals_mono,
      closed_props_mono.
Qed.

Lemma closed_objs_mono (n n' : nat) (os : heap) :
  (n <= n')%nat ->
  forallb (closed_obj n) os = true -> forallb (closed_obj n') os = true.
Proof.
  intros Hle. rewrite !forallb_forall. intros H o Ho.
  exact (closed_obj_mono _ _ _ Hle (H o Ho)).
Qed.

Lemma closed_heap_app (h new : heap) :
  closed_heap h = true ->
  forallb (closed_obj (length (h ++ new))) new = true ->
  closed_heap (h ++ new) = true.
Proof.
  intros Hh Hnew. unfold closed_heap. rewrite forallb_app, Hnew, andb_true_r.
  apply (closed_objs_mono (length h)); [rewrite length_app; lia | exact Hh].
Qed.

Lemma closed_set_prop (n : nat) (k : string) (v : jsval) (ps : props) :
  closed_val n v = true ->
  forallb (fun p => closed_val n (snd p)) ps = true ->
  forallb (fun p => closed_val n (snd p)) (set_prop k v ps) = true.
Proof.
  intros Hv. induction ps as [|[k' v'] ps IH]; simpl.
  - intros _. rewrite Hv. reflexivity.
  - intros [Hv' Hps]%andb_true_iff. destruct (String.eqb k k'); simpl.
    + rewrite Hv, Hps. reflexivity.
    + rewrite Hv', IH; trivial.
Qed.

Lemma shares_set_prop_old (n : nat) (k : string) (c : jsval) (ps : props) :
  closed_val n c = true ->
  shares_only_below n ps -> shares_only_below n (set_prop k c ps).
Proof.
  intros Hc Hps k1 k2 l Hne H1 H2.
  destruct (decide (k1 = k)) as [->|Hk1].
  - rewrite get_prop_set_prop_eq in H1. injection H1 as ->.
    apply Nat.ltb_lt, Hc.
  - destruct (decide (k2 = k)) as [->|Hk2].
    + rewrite get_prop_set_prop_eq in H2. injection H2 as ->.
      apply Nat.ltb_lt, Hc.
    + rewrite get_prop_set_prop_ne in H1, H2 by assumption.
      exact (Hps k1 k2 l Hne H1 H2).
Qed.

Lemma shares_set_prop_new (n L : nat) (k : string) (ps : props) :
  forallb (fun p => closed_val L (snd p)) ps = true ->
  shares_only_below n ps -> shares_only_below n (set_prop k (VRef L) ps).
Proof.
  intros Hcl Hps k1 k2 l Hne H1 H2.
  assert (forall k', k' <> k -> get_prop k' ps = Some (VRef L) -> False)
    as Hfresh.
  { intros k' _ Hk'. pose proof (closed_get_prop _ _ _ _ Hcl Hk') as Hlt.
    simpl in Hlt. apply Nat.ltb_lt in Hlt. lia. }
  destruct (decide (k1 = k)) as [->|Hk1].
  - rewrite get_prop_set_prop_eq in H1. injection H1 as <-.
    rewrite get_prop_set_prop_ne in H2 by congruence.
    destruct (Hfresh k2 ltac:(congruence) H2).
  - destruct (decide (k2 = k)) as [->|Hk2].
    + rewrite get_prop_set_prop_eq in H2. injection H2 as <-.
      rewrite get_prop_set_prop_ne in H1 by assumption.
      destruct (Hfresh k1 Hk1 H1).
    + rewrite get_prop_set_prop_ne in H1, H2 by assumption.
      exact (Hps k1 k2 l Hne H1 H2).
Qed.

Lemma closed_assign_prop (n : nat) (k : string) (v : jsval) (ps : props) :
  closed_val n v = true ->
  forallb (fun p => closed_val n (snd p)) ps = true ->
  forallb (fun p => closed_val n (snd p)) (assign_prop k v ps) = true.
Proof.
  unfold assign_prop. destruct (String.eqb k "__proto__"); [trivial|].
  apply closed_set_prop.
Qed.

Lemma shares_assign_prop_old (n : nat) (k : string) (c : jsval)
    (ps : props) :
  closed_val n c = true ->
  shares_only_below n ps -> shares_only_below n (assign_prop k c ps).
Proof.
  unfold assign_prop. destruct (String.eqb k "__proto__"); [trivial|].
  apply shares_set_prop_old.
Qed.

Lemma shares_assign_prop_new (n L : nat) (k : string) (ps : props) :
  forallb (fun p => closed_val L (snd p)) ps = true ->
  shares_only_below n ps -> shares_only_below n (assign_prop k (VRef L) ps).
Proof.
  unfold assign_prop. destruct (String.eqb k "__proto__"); [trivial|].
  apply shares_set_prop_new.
Qed.

Section ClosedRun.

Variable h : heap.
Hypothesis h_closed : closed_heap h = true.

(** The loop of [_reduceControls] on a closed heap: the map being filled
    only holds references to allocated objects, the controls created have
    closed contents, and no created control is stored under two names. *)
Lemma forEach_keys_closed (m : jsval) (ps : props) (ks : list string) :
  closed_val (length h) m = true -> map_props h m = Some ps ->
  forall acc ctrls,
    forallb (fun p => closed_val (S (length h + length ctrls)) (snd p)) acc
      = true ->
    forallb (closed_obj (length h)) ctrls = true ->
    shares_only_below (length h) acc ->
    exists acc' new,
      forEach_keys m ks (reduce_step (VRef (length h)))
        (h ++ OMap acc :: ctrls)
        = Ok tt (h ++ OMap acc' :: (ctrls ++ new)) /\
      forallb (fun p => closed_val (S (length h + length (ctrls ++ new)))
                          (snd p)) acc' = true /\
      forallb (closed_obj (length h)) (ctrls ++ new) = true /\
      shares_only_below (length h) acc'.
Proof.
  intros Hm Hps.
  assert (forallb (fun p => closed_val (length h) (snd p)) ps = true) as Hcl.
  { unfold map_props in Hps. destruct m as [| | | | | |l]; try discriminate.
    destruct (h !! l) as [[]|] eqn:E; try discriminate.
    injection Hps as <-. exact (closed_heap_lookup _ _ _ h_closed E). }
  induction ks as [|k ks IH]; intros acc ctrls Hacc Hctrls Hshare.
  - exists acc, []. rewrite !app_nil_r. repeat split; assumption.
  - cbn [forEach_keys]. rewrite (closed_map_props h _ m Hm), Hps.
    destruct (get_prop k ps) as [c|] eqn:Hk; [|apply IH; assumption].
    pose proof (closed_get_prop _ _ _ _ Hcl Hk) as Hc.
    destruct (_createControl_frame c h h_closed Hc)
      as [Hsame | (o & Ho & Hnew)].
    + destruct (IH (assign_prop k c acc) ctrls) as (acc' & new & HA & Hrest).
      * apply closed_assign_prop; [|exact Hacc].
        apply (closed_val_mono (length h)); [lia | exact Hc].
      * exact Hctrls.
      * apply shares_assign_prop_old; assumption.
      * exists acc', new. unfold bind.
        rewrite (reduce_step_run h ctrls [] acc c c k)
          by (rewrite app_nil_r; apply Hsame).
        rewrite app_nil_r, HA. split; [reflexivity | exact Hrest].
    + destruct (IH (assign_prop k (VRef (length (h ++ OMap acc :: ctrls))) acc)
                  (ctrls ++ [o])) as (acc' & new & HA & Hclo & Hobjs & Hsh).
      * rewrite !length_app. cbn [length].
        apply closed_assign_prop.
        -- simpl. apply Nat.ltb_lt. lia.
        -- apply (closed_props_mono (S (length h + length ctrls)));
             [lia | exact Hacc].
      * rewrite forallb_app, Hctrls. simpl. rewrite Ho. reflexivity.
      * apply shares_assign_prop_new; [|exact Hshare].
        rewrite length_app. cbn [length].
        replace (length h + S (length ctrls))
          with (S (length h + length ctrls)) by lia.
        exact Hacc.
      * exists acc', ([o] ++ new). unfold bind.
        rewrite (reduce_step_run h ctrls [o] acc c _ k (Hnew _)).
        rewrite HA, !app_assoc. split; [reflexivity|].
        split; [exact Hclo|]. split; [exact Hobjs | exact Hsh].
Qed.

(** [mapM _createControl] on closed elements: each result is closed for
    the heap it leaves, the controls created have closed contents, and no
    created control stands at two positions. *)
Lemma mapM_closed (elems : list jsval) :
  forallb (closed_val (length h)) elems = true ->
  forall A, exists rs new,
    mapM _createControl elems (h ++ A) = Ok rs ((h ++ A) ++ new) /\
    forallb (closed_obj (length h)) new = true /\
    (forall i r, rs !! i = Some r ->
       closed_val (length h) r = true \/
       exists l, r = VRef l /\
         (length (h ++ A) <= l < length ((h ++ A) ++ new))%nat) /\
    (forall i j l, i <> j ->
       rs !! i = Some (VRef l) -> rs !! j = Some (VRef l) ->
       (l < length h)%nat).
Proof.
  induction elems as [|c elems IH]; intros Hel A.
  - exists [], []. rewrite !app_nil_r. repeat split; intros; discriminate.
  - simpl in Hel. apply andb_true_iff in Hel as [Hc Hel].
    assert (forall (r0 : jsval) (rs : list jsval) (L : nat),
              (closed_val (length h) r0 = true \/
               (r0 = VRef L /\
                forall i r, rs !! i = Some r ->
                  closed_val (length h) r = true \/
                  exists l, r = VRef l /\ (L < l)%nat)) ->
              (forall i j l, i <> j ->
                 rs !! i = Some (VRef l) -> rs !! j = Some (VRef l) ->
                 (l < length h)%nat) ->
              forall i j l, i <> j ->
                (r0 :: rs) !! i = Some (VRef l) ->
                (r0 :: rs) !! j = Some (VRef l) ->
                (l < length h)%nat) as Hpairs.
    { intros r0 rs L Hr0 Hd i j l Hij Hi Hj.
      assert (forall j', rs !! j' = Some (VRef l) -> r0 = VRef l ->
                (l < length h)%nat) as Hhead.
      { intros j' Hj' ->. destruct Hr0 as [Hcl | [[= ->] Hb]].
        - apply Nat.ltb_lt, Hcl.
        - destruct (Hb j' _ Hj') as [Hcl | (l' & [= <-] & Hlt)];
            [apply Nat.ltb_lt, Hcl | lia]. }
      destruct i as [|i], j as [|j]; simpl in Hi, Hj.
      - congruence.
      - injection Hi as Hi. exact (Hhead j Hj Hi).
      - injection Hj as Hj. exact (Hhead i Hi Hj).
      - apply (Hd i j l); [congruence | assumption | assumption]. }
    destruct (_createControl_frame c h h_closed Hc)
      as [Hsame | (o & Ho & Hnew)].
    + destruct (IH Hel A) as (rs & new & HA & Hcl & Hb & Hd).
      exists (c :: rs), new. cbn [mapM]. unfold bind, ret.
      rewrite Hsame, HA. split; [reflexivity|]. split; [exact Hcl|].
      split.
      * intros [|i] r Hr; simpl in Hr.
        -- injection Hr as <-. left. exact Hc.
        -- exact (Hb i r Hr).
      * apply (Hpairs c rs 0); [left; exact Hc | exact Hd].
    + destruct (IH Hel (A ++ [o])) as (rs & new & HA & Hcl & Hb & Hd).
      exists (VRef (length (h ++ A)) :: rs), (o :: new).
      cbn [mapM]. unfold bind, ret.
      rewrite Hnew. rewrite <- (app_assoc h A [o]), HA.
      split; [rewrite <- !app_assoc; reflexivity|].
      split; [cbn [forallb]; rewrite Ho, Hcl; reflexivity|].
      split.
      * intros [|i] r Hr; simpl in Hr.
        -- injection Hr as <-. right. eexists. split; [reflexivity|].
           rewrite (length_app (h ++ A)). simpl. lia.
        -- destruct (Hb i r Hr) as [?|(l & -> & Hl)]; [auto|].
           right. exists l. split; [reflexivity|].
           rewrite !length_app in *. simpl in *. lia.
      * apply (Hpairs _ rs (length (h ++ A))); [right | exact Hd].
        split; [reflexivity|]. intros i r Hr.
        destruct (Hb i r Hr) as [?|(l & -> & Hl)]; [auto|].
        right. exists l. split; [reflexivity|].
        rewrite !length_app in *. simpl in *. lia.
Qed.

End ClosedRun.

Lemma _reduceControls_closed (m : jsval) (h : heap) :
  closed_heap h = true -> closed_val (length h) m = true ->
  exists rs new,
    _reduceControls m h = Ok (VRef (length h)) (h ++ OMap rs :: new) /\
    forallb (fun p => closed_val (S (length h + length new)) (snd p)) rs
      = true /\
    forallb (closed_obj (length h)) new = true /\
    shares_only_below (length h) rs.
Proof.
  intros Hh Hm.
  unfold _reduceControls. unfold bind at 1. unfold alloc.
  change (fun controlConfig controlName =>
            bind (_createControl controlConfig)
              (fun c => set_property (VRef (length h)) controlName c))
    with (reduce_step (VRef (length h))).
  unfold bind, StringMapWrapper_forEach.
  rewrite (closed_map_props h _ m Hm).
  destruct (map_props h m) as [ps|] eqn:Hps.
  - destruct (forEach_keys_closed h Hh m ps (keys ps) Hm Hps [] [])
      as (rs & new & Hrun & Hrs & Hnew & Hshare); try reflexivity.
    { intros k1 k2 l _ H. discriminate. }
    rewrite Hrun. exists rs, new. repeat split; assumption.
  - exists [], []. repeat split. intros k1 k2 l _ H. discriminate.
Qed.

(** [group] on a closed heap, with all that is known of what it
    allocates. *)
Lemma group_closed_run (m extra : jsval) (h : heap) :
  closed_heap h = true ->
  closed_val (length h) m = true ->
  closed_val (length h) extra = true ->
  exists rs new o v av,
    group m extra h
      = Ok (VRef (length (h ++ OMap rs :: new)))
           ((h ++ OMap rs :: new)
              ++ [OControlGroup (VRef (length h)) o v av]) /\
    _reduceControls m h = Ok (VRef (length h)) (h ++ OMap rs :: new) /\
    forallb (fun p => closed_val (S (length h + length new)) (snd p)) rs
      = true /\
    forallb (closed_obj (length h)) new = true /\
    shares_only_below (length h) rs /\
    closed_val (length h) o = true /\
    closed_val (length h) v = true /\
    closed_val (length h) av = true.
Proof.
  intros Hh Hm He.
  destruct (_reduceControls_closed m h Hh Hm)
    as (rs & new & Hred & Hrs & Hnew & Hshare).
  destruct (extra_option_frame extra "optionals" h Hh He) as (o & Ho & Hopt).
  destruct (extra_option_frame extra "validator" h Hh He) as (v & Hv & Hval).
  destruct (extra_option_frame extra "asyncValidator" h Hh He)
    as (av & Hav & Hasync).
  exists rs, new, o, v, av. split; [|repeat split; assumption].
  unfold group, bind. rewrite Hred, Hopt, Hval, Hasync. reflexivity.
Qed.

(** ** Created controls are never shared *)

(** X11: on a well-formed heap, [group] never puts a control it created
    under two names: if two fields of the group are the same object, that
    object existed before the call (the configuration held it under both
    names). *)
Theorem group_never_shares_created (m extra : jsval) (h : heap) :
  closed_heap h = true ->
  closed_val (length h) m = true ->
  exists g hf,
    group m extra h = Ok g hf /\
    forall k1 k2 l, k1 <> k2 ->
      group_field hf g k1 = Some (VRef l) ->
      group_field hf g k2 = Some (VRef l) ->
      is_Some (h !! l).
Proof.
  intros Hh Hm.
  destruct (_reduceControls_closed m h Hh Hm)
    as (rs & new & Hred & _ & _ & Hshare).
  destruct (group_field_run m extra h new rs Hred)
    as (g & o & v & av & Hrun & Hfield).
  eexists _, _. split; [exact Hrun|].
  intros k1 k2 l Hne H1 H2. rewrite Hfield in H1, H2.
  apply lookup_lt_is_Some_2. exact (Hshare k1 k2 l Hne H1 H2).
Qed.

(** X12: on a well-formed heap, [array] never puts a control it created at
    two positions: if two items of the [ControlArray] are the same object,
    that object existed before the call. *)
Theorem array_never_shares_created (a validator asyncValidator : jsval)
    (elems : list jsval) (h : heap) :
  closed_heap h = true ->
  array_elems h a = Some elems ->
  exists r hf,
    array a validator asyncValidator h = Ok r hf /\
    forall i j l, i <> j ->
      array_item hf r i = Some (VRef l) ->
      array_item hf r j = Some (VRef l) ->
      is_Some (h !! l).
Proof.
  intros Hh Harr.
  assert (forallb (closed_val (length h)) elems = true) as Hel.
  { unfold array_elems in Harr. destruct a as [| | | | | |l];
      try discriminate.
    destruct (h !! l) as [[]|] eqn:E; try discriminate.
    injection Harr as <-. exact (closed_heap_lookup _ _ _ Hh E). }
  destruct (mapM_closed h Hh elems Hel []) as (rs & new & Hm & _ & _ & Hd).
  rewrite !app_nil_r in Hm.
  destruct (array_item_run a validator asyncValidator _ _ _ _ Harr Hm)
    as (r & hf & Hrun & _ & Hitem).
  exists r, hf. split; [exact Hrun|].
  intros i j l Hne Hi Hj. rewrite Hitem in Hi, Hj.
  apply lookup_lt_is_Some_2. exact (Hd i j l Hne Hi Hj).
Qed.

(** ** The builder keeps the heap well-formed *)

(** X13: on a well-formed heap and with arguments that refer to allocated
    objects, each of [control], [group] and [array] leaves a well-formed
    heap, whether it returns or throws, and what it returns refers to an
    object of that heap: the builder never makes a dangling reference. *)
Theorem builder_keeps_heap_closed (h : heap) :
  closed_heap h = true ->
  (forall v a b,
     closed_val (length h) v = true -> closed_val (length h) a = true ->
     closed_val (length h) b = true ->
     exists r hf,
       control v a b h = Ok r hf /\
       closed_heap hf = true /\ closed_val (length hf) r = true) /\
  (forall m e,
     closed_val (length h) m = true -> closed_val (length h) e = true ->
     exists r hf,
       group m e h = Ok r hf /\
       closed_heap hf = true /\ closed_val (length hf) r = true) /\
  (forall c a b,
     closed_val (length h) c = true -> closed_val (length h) a = true ->
     closed_val (length h) b = true ->
     closed_heap (heap_of (array c a b h)) = true /\
     forall r hf, array c a b h = Ok r hf ->
       closed_val (length hf) r = true).
Proof.
  intros Hh. split; [|split].
  - intros v a b Hv Ha Hb. eexists _, _. split; [apply control_alloc|].
    split.
    + apply closed_heap_app; [exact Hh|]. cbn [forallb closed_obj].
      rewrite !andb_true_iff. repeat split; trivial;
        (apply (closed_val_mono (length h));
         [rewrite length_app; lia | auto using closed_default_param]).
    + simpl. apply Nat.ltb_lt. rewrite length_app. simpl. lia.
  - intros m e Hm He.
    destruct (group_closed_run m e h Hh Hm He)
      as (rs & new & o & v & av & Hrun & _ & Hrs & Hnew & _ & Ho & Hv & Hav).
    eexists _, _. split; [exact Hrun|]. split.
    + rewrite <- app_assoc. apply closed_heap_app; [exact Hh|].
      rewrite <- app_comm_cons. cbn [forallb]. rewrite forallb_app.
      cbn [forallb closed_obj]. rewrite !andb_true_iff.
      assert (length h <= length (h ++ OMap rs :: new ++
                [OControlGroup (VRef (length h)) o v av]))%nat as Hle
        by (rewrite length_app; lia).
      repeat split; trivial;
        try (apply (closed_val_mono (length h)); assumption).
      * apply (closed_props_mono (S (length h + length new))); [|exact Hrs].
        rewrite length_app. cbn [length]. rewrite length_app. lia.
      * apply (closed_objs_mono (length h)); assumption.
      * simpl. apply Nat.ltb_lt. rewrite length_app. cbn [length]. lia.
    + simpl. apply Nat.ltb_lt. rewrite (length_app _ [_]). simpl. lia.
  - intros c a b Hc Ha Hb.
    destruct (array_elems h c) as [elems|] eqn:Harr.
    + assert (forallb (closed_val (length h)) elems = true) as Hel.
      { unfold array_elems in Harr. destruct c as [| | | | | |l];
          try discriminate.
        destruct (h !! l) as [[]|] eqn:E; try discriminate.
        injection Harr as <-. exact (closed_heap_lookup _ _ _ Hh E). }
      destruct (mapM_closed h Hh elems Hel [])
        as (rs & new & Hm & Hnew & Hb' & _).
      rewrite !app_nil_r in Hm, Hb'.
      rewrite (array_run _ _ _ _ _ _ _ Harr Hm). split.
      * cbn [heap_of]. rewrite <- app_assoc.
        apply closed_heap_app; [exact Hh|].
        rewrite forallb_app. cbn [forallb closed_obj].
        rewrite !andb_true_iff.
        assert (length h <= length (h ++ new ++
                  [OArray rs;
                   OControlArray (VRef (length (h ++ new)))
                     (default_param a VNull) (default_param b VNull)]))%nat
          as Hle by (rewrite length_app; lia).
        repeat split; trivial;
          try solve [apply (closed_val_mono (length h));
                     auto using closed_default_param].
        -- apply (closed_objs_mono (length h)); assumption.
        -- apply forallb_forall. intros r Hr.
           apply list_elem_of_In, list_elem_of_lookup in Hr as [i Hi].
           destruct (Hb' i r Hi) as [Hcl | (l & -> & Hl)].
           ++ apply (closed_val_mono (length h)); assumption.
           ++ simpl. apply Nat.ltb_lt.
              rewrite !length_app in *. cbn [length]. lia.
        -- simpl. apply Nat.ltb_lt. rewrite !length_app. cbn [length]. lia.
      * intros r hf [= <- <-]. simpl. apply Nat.ltb_lt.
        rewrite (length_app _ [_; _]). simpl. lia.
    + unfold array, bind, Array_map, throw. rewrite Harr. cbn [heap_of].
      split; [exact Hh | intros r hf H; discriminate].
Qed.

(** ** Options of [group] *)

(** X14: [group] reads nothing of [extra] but the keys [optionals],
    [validator] and [asyncValidator]: two option maps that agree on these
    three keys give the same outcome, whatever else they hold. *)
Theorem group_reads_three_options (m extra1 extra2 : jsval)
    (eps1 eps2 : props) (h : heap) :
  map_props h extra1 = Some eps1 ->
  map_props h extra2 = Some eps2 ->
  get_prop "optionals" eps1 = get_prop "optionals" eps2 ->
  get_prop "validator" eps1 = get_prop "validator" eps2 ->
  get_prop "asyncValidator" eps1 = get_prop "asyncValidator" eps2 ->
  group m extra1 h = group m extra2 h.
Proof.
  intros H1 H2 Ho Hv Ha.
  destruct (_reduceControls_shape m h) as (rs & new & Hred).
  pose proof (map_props_app h (OMap rs :: new) _ _ H1) as H1'.
  pose proof (map_props_app h (OMap rs :: new) _ _ H2) as H2'.
  assert (forall extra eps key,
            map_props (h ++ OMap rs :: new) extra = Some eps ->
            (if isPresent (default_param extra VNull)
             then StringMapWrapper_get (default_param extra VNull) key
             else ret VNull) (h ++ OMap rs :: new)
            = Ok (default VUndefined (get_prop key eps))
                 (h ++ OMap rs :: new)) as Hget.
  { intros extra eps key Hmap.
    destruct (extra_option_run extra key (h ++ OMap rs :: new))
      as (o & Hrun & _ & Hval).
    rewrite Hrun, (Hval eps Hmap). reflexivity. }
  unfold group, bind. rewrite Hred.
  rewrite !(Hget extra1 eps1), !(Hget extra2 eps2) by assumption.
  rewrite Ho, Hv, Ha. reflexivity.
Qed.

(** ** Validators that are none *)

(** X15: in an array-shaped node a validator given as [null] or
    [undefined] counts as left out: [[v]], [[v, x]] and [[v, x, y]] with
    [x] and [y] none all make a [Control] holding [v] with both validators
    [null]. *)
Theorem createControl_none_validators (node v x y : jsval)
    (elems : list jsval) (h : heap) :
  array_elems h node = Some elems ->
  isPresent x = false -> isPresent y = false ->
  elems = [v] \/ elems = [v; x] \/ elems = [v; x; y] ->
  _createControl node h
    = Ok (VRef (length h)) (h ++ [OControl v VNull VNull]).
Proof.
  intros Harr Hx Hy Hel.
  rewrite (_createControl_array _ _ _ Harr), control_alloc.
  destruct Hel as [-> | [-> | ->]];
    destruct x; try discriminate; destruct y; try discriminate; reflexivity.
Qed.

(** ** Forms built before *)

Lemma group_field_grows (h hf : heap) (g r : jsval) (k : string) :
  h `prefix_of` hf ->
  group_field h g k = Some r -> group_field hf g k = Some r.
Proof.
  intros [X ->]. unfold group_field. destruct g as [| | | | | |l]; trivial.
  destruct (h !! l) as [o|] eqn:E; [|discriminate].
  rewrite (lookup_app_l_Some _ _ _ _ E).
  destruct o; trivial.
  destruct (map_props h controls) as [rs|] eqn:Hm; [|discriminate].
  rewrite (map_props_app _ X _ _ Hm). trivial.
Qed.

Lemma array_item_grows (h hf : heap) (a r : jsval) (i : nat) :
  h `prefix_of` hf ->
  array_item h a i = Some r -> array_item hf a i = Some r.
Proof.
  intros [X ->]. unfold array_item. destruct a as [| | | | | |l]; trivial.
  destruct (h !! l) as [o|] eqn:E; [|discriminate].
  rewrite (lookup_app_l_Some _ _ _ _ E).
  destruct o; trivial.
  destruct (array_elems h controls) as [rs|] eqn:Hm; [|discriminate].
  rewrite (array_elems_app _ X _ _ Hm). trivial.
Qed.

(** X16: a form built before stays as it is: whatever [control], [group]
    or [array] call follows, with whatever arguments and whether it returns
    or throws, each field of an existing [ControlGroup] and each item of an
    existing [ControlArray] is afterwards the control it was. *)
Theorem built_forms_stay_intact (h : heap) (g r : jsval) :
  (forall k, group_field h g k = Some r ->
     (forall v a b, group_field (heap_of (control v a b h)) g k = Some r) /\
     (forall m e, group_field (heap_of (group m e h)) g k = Some r) /\
     (forall c a b, group_field (heap_of (array c a b h)) g k = Some r)) /\
  (forall i, array_item h g i = Some r ->
     (forall v a b, array_item (heap_of (control v a b h)) g i = Some r) /\
     (forall m e, array_item (heap_of (group m e h)) g i = Some r) /\
     (forall c a b, array_item (heap_of (array c a b h)) g i = Some r)).
Proof.
  split.
  - intros k Hk. repeat split; intros;
      (eapply group_field_grows; [|exact Hk]);
      auto using control_grows, group_grows, array_grows.
  - intros i Hi. repeat split; intros;
      (eapply array_item_grows; [|exact Hi]);
      auto using control_grows, group_grows, array_grows.
Qed.

(** ** The further properties on sample heaps *)

Lemma array_fault_leaves_heap_witness :
  (forall l, VNum 5 <> VRef l) /\
  array (VNum 5) VUndefined VUndefined login_heap
    = Throw TypeError login_heap.
Proof.
  split; [discriminate|].
  apply (array_fault_leaves_heap (VNum 5) VUndefined VUndefined login_heap).
  discriminate.
Defined.

Lemma array_of_empty_witness :
  array_elems login_heap (VRef 1) = Some [] /\
  array (VRef 1) VUndefined VUndefined login_heap
    = Ok (VRef 11)
         (login_heap ++ [OArray []; OControlArray (VRef 10) VNull VNull]).
Proof.
  split; [reflexivity|].
  exact (array_of_empty (VRef 1) VUndefined VUndefined login_heap eq_refl).
Defined.

Lemma group_of_empty_witness :
  map_props [OMap []] (VRef 0) = Some [] /\
  exists optionals validator asyncValidator,
    group (VRef 0) VUndefined [OMap []]
      = Ok (VRef 2)
           [OMap []; OMap [];
            OControlGroup (VRef 1) optionals validator asyncValidator].
Proof.
  split; [reflexivity|].
  exact (group_of_empty (VRef 0) VUndefined [OMap []] eq_refl).
Defined.

Lemma group_keeps_prebuilt_witness :
  "prebuilt" <> "__proto__" /\
  is_instance login_heap (VRef 2) = true /\
  exists g hf,
    group (VRef 3) VUndefined login_heap = Ok g hf /\
    group_field hf g "prebuilt" = Some (VRef 2).
Proof.
  split; [discriminate|]. split; [reflexivity|].
  exact (group_keeps_prebuilt (VRef 3) VUndefined (VRef 2) "prebuilt"
           [("login", VRef 0); ("prebuilt", VRef 2); ("raw", VStr "x")]
           login_heap eq_refl ltac:(discriminate) eq_refl eq_refl).
Defined.

Lemma group_creates_field_witness :
  "login" <> "__proto__" /\
  is_instance login_heap (VRef 0) = false /\
  exists g hf l o,
    group (VRef 3) VUndefined login_heap = Ok g hf /\
    group_field hf g "login" = Some (VRef l) /\
    login_heap !! l = None /\ hf !! l = Some o /\
    _createControl (VRef 0) login_heap
      = Ok (VRef (length login_heap)) (login_heap ++ [o]).
Proof.
  split; [discriminate|]. split; [reflexivity|].
  exact (group_creates_field (VRef 3) VUndefined (VRef 0) "login"
           [("login", VRef 0); ("prebuilt", VRef 2); ("raw", VStr "x")]
           login_heap eq_refl ltac:(discriminate) eq_refl eq_refl eq_refl).
Defined.

Lemma array_keeps_prebuilt_witness :
  is_instance login_heap (VRef 2) = true /\
  exists r hf,
    array (VRef 5) VUndefined VUndefined login_heap = Ok r hf /\
    array_item hf r 1 = Some (VRef 2).
Proof.
  split; [reflexivity|].
  exact (array_keeps_prebuilt (VRef 5) VUndefined VUndefined (VRef 2)
           [VRef 0; VRef 2; VNum 5] 1 login_heap eq_refl eq_refl eq_refl).
Defined.

Lemma array_creates_item_witness :
  is_instance login_heap (VNum 5) = false /\
  exists r hf l o,
    array (VRef 5) VUndefined VUndefined login_heap = Ok r hf /\
    array_item hf r 2 = Some (VRef l) /\
    login_heap !! l = None /\ hf !! l = Some o /\
    _createControl (VNum 5) login_heap
      = Ok (VRef (length login_heap)) (login_heap ++ [o]).
Proof.
  split; [reflexivity|].
  exact (array_creates_item (VRef 5) VUndefined VUndefined (VNum 5)
           [VRef 0; VRef 2; VNum 5] 2 login_heap
           eq_refl eq_refl eq_refl eq_refl).
Defined.

Lemma group_preserves_key_order_witness :
  NoDup ["login"; "prebuilt"; "raw"] /\
  exists lg hf controls optionals validator asyncValidator rs,
    group (VRef 3) VUndefined login_heap = Ok (VRef lg) hf /\
    hf !! lg
      = Some (OControlGroup controls optionals validator asyncValidator) /\
    map_props hf controls = Some rs /\
    keys rs = ["login"; "prebuilt"; "raw"].
Proof.
  assert (NoDup ["login"; "prebuilt"; "raw"]) as Hnd.
  { apply (bool_decide_unpack _). vm_compute. exact I. }
  split; [exact Hnd|].
  exact (group_preserves_key_order (VRef 3) VUndefined
           [("login", VRef 0); ("prebuilt", VRef 2); ("raw", VStr "x")]
           login_heap eq_refl Hnd).
Defined.

Lemma group_never_shares_created_witness :
  closed_heap login_heap = true /\
  exists g hf,
    group (VRef 3) VUndefined login_heap = Ok g hf /\
    forall k1 k2 l, k1 <> k2 ->
      group_field hf g k1 = Some (VRef l) ->
      group_field hf g k2 = Some (VRef l) ->
      is_Some (login_heap !! l).
Proof.
  split; [reflexivity|].
  exact (group_never_shares_created (VRef 3) VUndefined login_heap
           eq_refl eq_refl).
Defined.

Lemma array_never_shares_created_witness :
  closed_heap login_heap = true /\
  exists r hf,
    array (VRef 5) VUndefined VUndefined login_heap = Ok r hf /\
    forall i j l, i <> j ->
      array_item hf r i = Some (VRef l) ->
      array_item hf r j = Some (VRef l) ->
      is_Some (login_heap !! l).
Proof.
  split; [reflexivity|].
  exact (array_never_shares_created (VRef 5) VUndefined VUndefined
           [VRef 0; VRef 2; VNum 5] login_heap eq_refl eq_refl).
Defined.

Lemma builder_keeps_heap_closed_witness :
  closed_heap login_heap = true /\
  exists r hf,
    group (VRef 3) (VRef 4) login_heap = Ok r hf /\
    closed_heap hf = true /\ closed_val (length hf) r = true.
Proof.
  split; [reflexivity|].
  destruct (builder_keeps_heap_closed login_heap eq_refl) as (_ & Hgroup & _).
  exact (Hgroup (VRef 3) (VRef 4) eq_refl eq_refl).
Defined.

Lemma group_reads_three_options_witness :
  group (VRef 0) (VRef 1)
    [OMap []; OMap [("validator", required); ("touched", VBool true)];
     OMap [("validator", required)]]
  = group (VRef 0) (VRef 2)
      [OMap []; OMap [("validator", required); ("touched", VBool true)];
       OMap [("validator", required)]].
Proof.
  exact (group_reads_three_options (VRef 0) (VRef 1) (VRef 2)
           [("validator", required); ("touched", VBool true)]
           [("validator", required)]
           [OMap []; OMap [("validator", required); ("touched", VBool true)];
            OMap [("validator", required)]]
           eq_refl eq_refl eq_refl eq_refl eq_refl).
Defined.

Lemma createControl_none_validators_witness :
  array_elems [OArray [VStr "a"; VNull]] (VRef 0) = Some [VStr "a"; VNull] /\
  _createControl (VRef 0) [OArray [VStr "a"; VNull]]
    = Ok (VRef 1) [OArray [VStr "a"; VNull]; OControl (VStr "a") VNull VNull].
Proof.
  split; [reflexivity|].
  exact (createControl_none_validators (VRef 0) (VStr "a") VNull VUndefined
           [VStr "a"; VNull] [OArray [VStr "a"; VNull]]
           eq_refl eq_refl eq_refl (or_intror (or_introl eq_refl))).
Defined.
